(** * D2RParser (dimm.py): merge of D2RQ mapping files

    A shallow embedding of [src/dimm.py] and the properties of its merge
    and reference-resolution engine.

    The Python standard library ([re], [os.path], [os.walk]) and rdflib are
    outside the repository; the parts of them the program calls are modelled
    here by executable definitions (module [Re], module [Path], the graph
    operations) or taken from an explicit [World] (directory contents, file
    contents, what the RDF parser makes of a file). *)

From Stdlib Require Import Ascii String List Bool Arith Lia.
From stdpp Require Import base decidable option list strings gmap.

Open Scope string_scope.
Open Scope list_scope.

(** ** Strings as Python sees them *)

Definition newline : ascii := Ascii.ascii_of_nat 10.

Definition ascii_eqb (a b : ascii) : bool := Ascii.eqb a b.

(** [s.startswith(p)] *)
Fixpoint startswith (p s : string) : bool :=
  match p, s with
  | EmptyString, _ => true
  | String a p', String b s' => ascii_eqb a b && startswith p' s'
  | String _ _, EmptyString => false
  end.

(** [c in s] for a one-character [c] *)
Fixpoint contains (c : ascii) (s : string) : bool :=
  match s with
  | EmptyString => false
  | String a s' => ascii_eqb a c || contains c s'
  end.

(** [s[n:]] *)
Fixpoint drop_str (n : nat) (s : string) : string :=
  match n, s with
  | O, _ => s
  | S n', String _ s' => drop_str n' s'
  | S _, EmptyString => EmptyString
  end.

(** [s[:n]] *)
Fixpoint take_str (n : nat) (s : string) : string :=
  match n, s with
  | O, _ => EmptyString
  | S n', String a s' => String a (take_str n' s')
  | S _, EmptyString => EmptyString
  end.

(** The part of [s] after its first [c], when [c] occurs. *)
Fixpoint after_first (c : ascii) (s : string) : option string :=
  match s with
  | EmptyString => None
  | String a s' => if ascii_eqb a c then Some s' else after_first c s'
  end.

(** The part of [s] before its first [c]; all of [s] when [c] does not occur. *)
Fixpoint before_first (c : ascii) (s : string) : string :=
  match s with
  | EmptyString => EmptyString
  | String a s' => if ascii_eqb a c then EmptyString else String a (before_first c s')
  end.

(** The part of [s] after its last [c], when [c] occurs. *)
Fixpoint after_last (c : ascii) (s : string) : option string :=
  match s with
  | EmptyString => None
  | String a s' =>
      match after_last c s' with
      | Some t => Some t
      | None => if ascii_eqb a c then Some s' else None
      end
  end.

(** The part of [s] before its last [c], when [c] occurs. *)
Fixpoint before_last (c : ascii) (s : string) : option string :=
  match s with
  | EmptyString => None
  | String a s' =>
      match before_last c s' with
      | Some t => Some (String a t)
      | None => if ascii_eqb a c then Some EmptyString else None
      end
  end.

(** ** Python's [re], for the patterns the program uses

    A backtracking matcher in continuation-passing style.  Repetition is
    greedy and applies to one-character classes, which is all the four
    patterns of the program need; there is one capturing group. *)
Module Re.

Inductive cclass :=
| CDot                (* .     any character but a line break *)
| CNot (c : ascii)    (* [^c]  any character but c *)
| CChar (c : ascii).  (* c     the character itself *)

Definition accepts (k : cclass) (a : ascii) : bool :=
  match k with
  | CDot => negb (ascii_eqb a newline)
  | CNot c => negb (ascii_eqb a c)
  | CChar c => ascii_eqb a c
  end.

Inductive regex :=
| Eps
| One (k : cclass)
| Star (k : cclass)
| Plus (k : cclass)
| Seq (r1 r2 : regex)
| Alt (r1 r2 : regex)
| Group (r : regex)
| Bol                 (* ^ *)
| Eol.                (* $ *)

(** A literal word, character by character. *)
Fixpoint Lit (w : string) : regex :=
  match w with
  | EmptyString => Eps
  | String a w' => Seq (One (CChar a)) (Lit w')
  end.

(** What a successful match reports: where it ends and group 1. *)
Record hit := { h_end : nat; h_group : option string }.

(** The continuation receives the absolute position, the group captured
    so far and the text still to be read. *)
Definition cont (A : Type) := nat -> option string -> string -> option A.

Fixpoint star {A} (k : cclass) (kont : cont A) (pos : nat) (cap : option string)
    (s : string) : option A :=
  match s with
  | String a s' =>
      if accepts k a then
        match star k kont (S pos) cap s' with
        | Some r => Some r
        | None => kont pos cap s
        end
      else kont pos cap s
  | EmptyString => kont pos cap s
  end.

Fixpoint run {A} (r : regex) (kont : cont A) (pos : nat) (cap : option string)
    (s : string) : option A :=
  match r with
  | Eps => kont pos cap s
  | One k =>
      match s with
      | String a s' => if accepts k a then kont (S pos) cap s' else None
      | EmptyString => None
      end
  | Star k => star k kont pos cap s
  | Plus k =>
      match s with
      | String a s' => if accepts k a then star k kont (S pos) cap s' else None
      | EmptyString => None
      end
  | Seq r1 r2 => run r1 (run r2 kont) pos cap s
  | Alt r1 r2 =>
      match run r1 kont pos cap s with
      | Some x => Some x
      | None => run r2 kont pos cap s
      end
  | Group r' =>
      run r' (fun pos' _ s' => kont pos' (Some (take_str (pos' - pos) s)) s') pos cap s
  | Bol => if Nat.eqb pos 0 then kont pos cap s else None
  | Eol =>
      (* the end of the text, or just before a line break that ends it *)
      match s with
      | EmptyString => kont pos cap s
      | String a EmptyString => if ascii_eqb a newline then kont pos cap s else None
      | _ => None
      end
  end.

(** The continuation that ends a match. *)
Definition finish : cont hit :=
  fun e cap _ => Some {| h_end := e; h_group := cap |}.

(** A match that starts at position [pos], [s] being the text from there. *)
Definition match_at (r : regex) (pos : nat) (s : string) : option hit :=
  run r finish pos None s.

(** Every character of [s] is in the class [k]. *)
Fixpoint all_in (k : cclass) (s : string) : bool :=
  match s with
  | EmptyString => true
  | String a s' => accepts k a && all_in k s'
  end.

(** [re.search]: the leftmost position with a match; the start and the hit. *)
Fixpoint search_from (r : regex) (pos : nat) (s : string) : option (nat * hit) :=
  match match_at r pos s with
  | Some h => Some (pos, h)
  | None =>
      match s with
      | EmptyString => None
      | String _ s' => search_from r (S pos) s'
      end
  end.

Definition search (r : regex) (s : string) : option hit :=
  snd <$> search_from r 0 s.

(** [m.group(1)] of a match object; a group that took no part is [None]. *)
Definition group1 (h : hit) : string := default "" (h_group h).

(** [re.sub(r, "", s)]: every non-overlapping match, leftmost first, is
    deleted.  [fuel] bounds the number of steps; the text length plus one
    is enough.  None of the program's patterns matches the empty string;
    an empty match is stepped over. *)
Fixpoint delete_matches (fuel : nat) (r : regex) (pos : nat) (s : string) : string :=
  match fuel with
  | O => s
  | S fuel' =>
      match match_at r pos s with
      | Some h =>
          if Nat.ltb pos (h_end h)
          then delete_matches fuel' r (h_end h) (drop_str (h_end h - pos) s)
          else match s with
               | EmptyString => EmptyString
               | String a s' => String a (delete_matches fuel' r (S pos) s')
               end
      | None =>
          match s with
          | EmptyString => EmptyString
          | String a s' => String a (delete_matches fuel' r (S pos) s')
          end
      end
  end.

Definition sub_empty (r : regex) (s : string) : string :=
  delete_matches (S (String.length s)) r 0 s.

End Re.

(** The four patterns of dimm.py. *)

(** ["^[^#]*#(.+)$"] *)
Definition sharp_re : Re.regex :=
  Re.Seq Re.Bol (Re.Seq (Re.Star (Re.CNot "#")) (Re.Seq (Re.One (Re.CChar "#"))
    (Re.Seq (Re.Group (Re.Plus Re.CDot)) Re.Eol))).

(** ["^.*/([^/]+)$"] *)
Definition slash_re : Re.regex :=
  Re.Seq Re.Bol (Re.Seq (Re.Star Re.CDot) (Re.Seq (Re.One (Re.CChar "/"))
    (Re.Seq (Re.Group (Re.Plus (Re.CNot "/"))) Re.Eol))).

(** ["\..+$"] *)
Definition ext_re : Re.regex :=
  Re.Seq (Re.One (Re.CChar ".")) (Re.Seq (Re.Plus Re.CDot) Re.Eol).

(** ["\.(rdf|owl|ttl|n3)$"] *)
Definition rdf_suffix_re : Re.regex :=
  Re.Seq (Re.One (Re.CChar "."))
    (Re.Seq (Re.Group (Re.Alt (Re.Lit "rdf") (Re.Alt (Re.Lit "owl")
                        (Re.Alt (Re.Lit "ttl") (Re.Lit "n3")))))
            Re.Eol).

(** ** [os.path] on a POSIX system *)
Module Path.

Definition sep : string := "/".

Fixpoint all_slashes (s : string) : bool :=
  match s with
  | EmptyString => true
  | String a s' => ascii_eqb a "/" && all_slashes s'
  end.

(** [s.rstrip('/')] *)
Fixpoint rstrip_slashes (s : string) : string :=
  match s with
  | EmptyString => EmptyString
  | String a s' =>
      match rstrip_slashes s' with
      | EmptyString => if ascii_eqb a "/" then EmptyString else String a EmptyString
      | t => String a t
      end
  end.

(** [posixpath.dirname]: the head up to and with the last slash, its
    trailing slashes stripped unless it consists of slashes only. *)
Definition dirname (p : string) : string :=
  match before_last "/" p with
  | None => ""
  | Some pre =>
      let head := pre +:+ "/" in
      if all_slashes head then head else rstrip_slashes head
  end.

(** [posixpath.basename]: what follows the last slash. *)
Definition basename (p : string) : string :=
  match after_last "/" p with
  | None => p
  | Some t => t
  end.

(** [posixpath.join a b], which [os.walk] uses to descend. *)
Definition join (a b : string) : string :=
  if startswith "/" b then b
  else if String.eqb a "" then b
  else if String.eqb (drop_str (String.length a - 1) a) "/" then a +:+ b
  else a +:+ "/" +:+ b.

End Path.

(** ** RDF terms, statements and graphs (rdflib) *)

Inductive term :=
| URIRef (iri : string)
| BNode (id : string)
| Literal (lexical : string).

#[global] Instance term_eq_dec : EqDecision term.
Proof. solve_decision. Defined.

#[global] Instance term_countable : Countable term.
Proof.
  refine (inj_countable'
    (fun t => match t with
              | URIRef s => inl s
              | BNode s => inr (inl s)
              | Literal s => inr (inr s)
              end)
    (fun x => match x with
              | inl s => URIRef s
              | inr (inl s) => BNode s
              | inr (inr s) => Literal s
              end) _).
  by intros [].
Defined.

(** [str(res)] *)
Definition str (t : term) : string :=
  match t with
  | URIRef s => s
  | BNode s => s
  | Literal s => s
  end.

(** [isinstance(t, BNode)] *)
Definition is_bnode (t : term) : bool :=
  match t with
  | BNode _ => true
  | _ => false
  end.

Definition term_eqb (a b : term) : bool := bool_decide (a = b).

Definition triple : Type := term * term * term.

Definition subj (t : triple) : term := t.1.1.
Definition pred (t : triple) : term := t.1.2.
Definition obj (t : triple) : term := t.2.

Definition triple_eqb (a b : triple) : bool := bool_decide (a = b).

(** The statements of a graph, in the order in which the store enumerates
    them.  A graph is a set: [add] never makes a second copy.  rdflib fixes
    no enumeration order; the model lists statements in insertion order and
    every theorem below that quantifies over a graph covers every order. *)
Definition graph := list triple.

(** A pattern position: [None] is rdflib's wildcard. *)
Definition opt_match (o : option term) (t : term) : bool :=
  match o with
  | None => true
  | Some x => term_eqb x t
  end.

(** [g.triples((s, p, o))] *)
Definition triples (g : graph) (s p o : option term) : list triple :=
  List.filter (fun t => opt_match s (subj t) && opt_match p (pred t) && opt_match o (obj t)) g.

(** [t in g] *)
Definition has_triple (g : graph) (t : triple) : bool :=
  existsb (triple_eqb t) g.

(** [g.add(t)] *)
Definition add (t : triple) (g : graph) : graph :=
  if has_triple g t then g else g ++ [t].

(** [g.remove((s, p, o))]: every statement matching the pattern goes. *)
Definition remove (g : graph) (s p o : option term) : graph :=
  List.filter (fun t => negb (opt_match s (subj t) && opt_match p (pred t) && opt_match o (obj t))) g.

(** [g.subjects(p, o)], [g.objects(s, p)], [g.predicate_objects(s)],
    [g.subject_objects(p)]: one item per matching statement. *)
Definition subjects (g : graph) (p o : option term) : list term :=
  List.map subj (triples g None p o).

Definition objects (g : graph) (s p : option term) : list term :=
  List.map obj (triples g s p None).

Definition predicate_objects (g : graph) (s : option term) : list (term * term) :=
  List.map (fun t => (pred t, obj t)) (triples g s None None).

Definition subject_objects (g : graph) (p : option term) : list (term * term) :=
  List.map (fun t => (subj t, obj t)) (triples g None p None).

(** [x in iterable] *)
Definition term_in (x : term) (l : list term) : bool := existsb (term_eqb x) l.

(** The vocabulary. *)
Definition d2rq (name : string) : term :=
  URIRef ("http://www.wiwiss.fu-berlin.de/suhl/bizer/D2RQ/0.1#" +:+ name).

Definition RDF_type : term := URIRef "http://www.w3.org/1999/02/22-rdf-syntax-ns#type".

Definition ClassMap := d2rq "ClassMap".
Definition TranslationTable := d2rq "TranslationTable".
Definition Database := d2rq "Database".
Definition refersToClassMap := d2rq "refersToClassMap".
Definition translateWith := d2rq "translateWith".
Definition dataStorage := d2rq "dataStorage".

(** ** The world outside the program *)

(** A directory entry; [os.walk] descends into [Dir]s. *)
#[warnings="-register-all"]
Inductive entry :=
| File (name : string)
| Dir (name : string) (children : list entry).

Definition file_names (es : list entry) : list string :=
  flat_map (fun e => match e with File n => [n] | Dir _ _ => [] end) es.

Definition dir_names (es : list entry) : list string :=
  flat_map (fun e => match e with File _ => [] | Dir n _ => [n] end) es.

(** [os.walk(top)], top-down: the directory itself, then each
    subdirectory in listing order. *)
Fixpoint walk_dir (top : string) (e : entry) {struct e}
    : list (string * list string * list string) :=
  match e with
  | File _ => []
  | Dir _ children =>
      (top, dir_names children, file_names children) ::
      (fix subdirs (l : list entry) : list (string * list string * list string) :=
         match l with
         | [] => []
         | c :: l' =>
             match c with
             | File _ => []
             | Dir n _ => walk_dir (Path.join top n) c
             end ++ subdirs l'
         end) children
  end.

(** The serialization formats [__load_graph] tries, in this order. *)
Inductive format := JsonLd | RdfXml | Turtle | Trig.

Definition formats : list format := [JsonLd; RdfXml; Turtle; Trig].

(** What [Graph.load] yields: the statements and the declared prefixes. *)
Record parsed := {
  p_triples : graph;
  p_namespaces : list (string * string)
}.

(** Why one attempt to load failed.  The program never looks at it
    ([except Exception: pass]); it is here to state what the program
    cannot tell apart. *)
Inductive load_failure :=
| BadSyntax        (* the content is not in this format *)
| BadPath.         (* the loader choked on the characters of the path *)

Record World := {
  (** the directory at a path: its entries in listing order *)
  w_dir : string -> option (list entry);
  (** the regular file at a path: its content *)
  w_file : string -> option string;
  (** [Graph.load(path, format)] of a file with this content *)
  w_load : format -> string -> string -> parsed + load_failure
}.

Definition isfile (w : World) (p : string) : bool := bool_decide (is_Some (w_file w p)).
Definition isdir (w : World) (p : string) : bool := bool_decide (is_Some (w_dir w p)).

Definition os_walk (w : World) (top : string) : list (string * list string * list string) :=
  match w_dir w top with
  | Some es => walk_dir top (Dir top es)
  | None => []
  end.

(** ** Exceptions *)

Inductive error :=
| IOError1     (* IOError("1", "The file specified doesn't exist.") *)
| IOError2     (* IOError("2", "It was impossible to handle the format ...") *)
| CopyError.   (* shutil.copyfile could not write the scratch copy *)

Inductive result (A : Type) :=
| Ok (a : A)
| Raise (e : error).

Arguments Ok {A} a.
Arguments Raise {A} e.

#[global] Instance result_bind : MBind result :=
  fun A B f m =>
    match m with
    | Ok a => f a
    | Raise e => Raise e
    end.

(** A loop whose body may raise: the first exception ends it. *)
Fixpoint for_each {A S} (body : S -> A -> result S) (l : list A) (st : S) : result S :=
  match l with
  | [] => Ok st
  | x :: l' => st' ← body st x; for_each body l' st'
  end.

(** ** The URI namer: [local_name] *)

Definition local_name_str (cur_uri : string) : string :=
  let cur_uri :=
    match Re.search sharp_re cur_uri with
    | Some sharp_match => Re.group1 sharp_match
    | None => cur_uri
    end in
  match Re.search slash_re cur_uri with
  | Some slash_match => Re.group1 slash_match
  | None => cur_uri
  end.

Definition local_name (res : term) : string := local_name_str (str res).

(** ** The graph loader *)

(** What the loader does to the world, in order. *)
Inductive event :=
| EvLoad (path : string) (f : format)
| EvCopy (src dst : string)
| EvRemove (path : string).

(** The loop of [__load_graph] over the formats still to try.  [content]
    is what the file at [file_path] holds. *)
Fixpoint load_graph_from (w : World) (file_path content : string) (fs : list format)
    : result parsed * list event :=
  match fs with
  | [] => (Raise IOError2, [])
  | cur_format :: fs' =>
      match w_load w cur_format file_path content with
      | inl current_graph => (Ok current_graph, [EvLoad file_path cur_format])
      | inr _ =>
          let '(r, tr) := load_graph_from w file_path content fs' in
          (r, EvLoad file_path cur_format :: tr)
      end
  end.

(** [__load_graph] *)
Definition load_graph (w : World) (file_path content : string) : result parsed * list event :=
  load_graph_from w file_path content formats.

(** Whether [shutil.copyfile] into the scratch directory succeeds: the
    directory has to exist. *)
Definition can_copy (w : World) (tmp_dir : string) : bool := isdir w tmp_dir.

(** [__load_graph_from_format], with the trace of what it did. *)
Definition load_graph_from_format_trace (w : World) (rdf_file_path : string)
    (tmp_dir : option string) : result parsed * list event :=
  match w_file w rdf_file_path with
  | Some content =>
      match load_graph w rdf_file_path content with
      | (Ok current_graph, tr) => (Ok current_graph, tr)
      | (Raise e, tr) =>
          match tmp_dir with
          | None => (Raise e, tr)
          | Some d =>
              let current_file_path := d +:+ Path.sep +:+ "tmp_rdf_file.rdf" in
              if can_copy w d then
                match load_graph w current_file_path content with
                | (Ok current_graph, tr') =>
                    (Ok current_graph,
                     tr ++ [EvCopy rdf_file_path current_file_path] ++ tr'
                        ++ [EvRemove current_file_path])
                | (Raise e', tr') =>
                    (Raise e', tr ++ [EvCopy rdf_file_path current_file_path] ++ tr')
                end
              else (Raise CopyError, tr ++ [EvCopy rdf_file_path current_file_path])
          end
      end
  | None => (Raise IOError1, [])
  end.

Definition load_graph_from_format (w : World) (rdf_file_path : string)
    (tmp_dir : option string) : result parsed :=
  fst (load_graph_from_format_trace w rdf_file_path tmp_dir).

(** ** The validator *)

(** [re.sub("\..+$", "", os.path.basename(cur_path))] *)
Definition expected_name (cur_path : string) : string :=
  Re.sub_empty ext_re (Path.basename cur_path).

(** The loop of [validate_file]: [(found, found_resource, found_type)]. *)
Definition validate_scan (cur_name : string) (g : graph) : bool * option term * option term :=
  fold_left
    (fun acc t =>
       if String.eqb (local_name (subj t)) cur_name
       then (true, Some (subj t), Some (obj t))
       else acc)
    (triples g None (Some RDF_type) None)
    (false, None, None).

(** [validate_file]: the loaded graph, or [None] when no typed resource
    carries the name of the file. *)
Definition validate_file (w : World) (cur_path : string) (tmp_dir : option string)
    : result (option parsed) :=
  cur_graph ← load_graph_from_format w cur_path tmp_dir;
  let cur_name := expected_name cur_path in
  let '(found, _, _) := validate_scan cur_name (p_triples cur_graph) in
  if found then Ok (Some cur_graph) else Ok None.

(** [if cur_graph:] a graph is true when it has a statement. *)
Definition graph_true (g : option parsed) : option parsed :=
  match g with
  | Some cur_graph =>
      match p_triples cur_graph with
      | [] => None
      | _ :: _ => Some cur_graph
      end
  | None => None
  end.

(** ** The parser object *)

Record parser := {
  final_mapping : graph;
  (** the [bind] calls made on the final mapping's namespace manager, in
      order; the registry is a function of this history *)
  bound_namespaces : list (string * string);
  classmap_set : gset term;
  translationtable_set : gset term;
  database_set : gset term
}.

(** [D2RParser(path_list, tmp_dir)] *)
Definition new_parser : parser :=
  {| final_mapping := [];
     bound_namespaces := [];
     classmap_set := ∅;
     translationtable_set := ∅;
     database_set := ∅ |}.

Definition set_final_mapping (g : graph) (st : parser) : parser :=
  {| final_mapping := g;
     bound_namespaces := bound_namespaces st;
     classmap_set := classmap_set st;
     translationtable_set := translationtable_set st;
     database_set := database_set st |}.

Definition add_classmap (s : term) (st : parser) : parser :=
  {| final_mapping := final_mapping st;
     bound_namespaces := bound_namespaces st;
     classmap_set := {[s]} ∪ classmap_set st;
     translationtable_set := translationtable_set st;
     database_set := database_set st |}.

Definition add_translationtable (s : term) (st : parser) : parser :=
  {| final_mapping := final_mapping st;
     bound_namespaces := bound_namespaces st;
     classmap_set := classmap_set st;
     translationtable_set := {[s]} ∪ translationtable_set st;
     database_set := database_set st |}.

Definition add_database (s : term) (st : parser) : parser :=
  {| final_mapping := final_mapping st;
     bound_namespaces := bound_namespaces st;
     classmap_set := classmap_set st;
     translationtable_set := translationtable_set st;
     database_set := {[s]} ∪ database_set st |}.

(** [add_declared_namespaces] *)
Definition add_declared_namespaces (cur_graph : parsed) (st : parser) : parser :=
  {| final_mapping := final_mapping st;
     bound_namespaces := bound_namespaces st ++ p_namespaces cur_graph;
     classmap_set := classmap_set st;
     translationtable_set := translationtable_set st;
     database_set := database_set st |}.

(** ** The reference resolver *)

(** The paths [complete_file_path] looks at, in the order of its two loops. *)
Definition walked_paths (w : World) (top : string) : list string :=
  flat_map (fun '(cur_dir, _, cur_files) =>
              List.map (fun cur_file => cur_dir +:+ Path.sep +:+ cur_file) cur_files)
           (os_walk w top).

(** [complete_file_path] *)
Definition complete_file_path (w : World) (incomplete_file_path : string) : option string :=
  List.find (fun cur_path => startswith (incomplete_file_path +:+ ".") cur_path)
            (walked_paths w (Path.dirname incomplete_file_path)).

(** The statements [retrieve_references] copies from a valid reference
    graph: those of the reference, and those of each blank node they point to. *)
Definition import_reference (g : graph) (cur_reference : term) (fm : graph) : graph :=
  fold_left
    (fun fm '(p, o) =>
       let fm := add (cur_reference, p, o) fm in
       if is_bnode o
       then fold_left (fun fm '(o_p, o_o) => add (o, o_p, o_o) fm)
                      (predicate_objects g (Some o)) fm
       else fm)
    (predicate_objects g (Some cur_reference)) fm.

(** [retrieve_references] *)
Definition retrieve_references (w : World) (file_path : string) (cur_reference : term)
    (st : parser) : result parser :=
  let cur_name := local_name cur_reference in
  match complete_file_path w (Path.dirname file_path +:+ Path.sep +:+ cur_name) with
  | Some reference_file_path =>
      if String.eqb reference_file_path "" then Ok st else
      cur_reference_graph ← validate_file w reference_file_path None;
      match graph_true cur_reference_graph with
      | Some g =>
          let st := add_declared_namespaces g st in
          Ok (set_final_mapping
                (import_reference (p_triples g) cur_reference (final_mapping st)) st)
      | None => Ok st
      end
  | None => Ok st
  end.

(** ** Cleanup and report *)

(** One round of the loop of [clear_orphan_blank_nodes]. *)
Definition orphan_step (g : graph) (s : term) : graph :=
  if is_bnode s && negb (term_in s (objects g None None))
  then remove g (Some s) None None
  else g.

(** [clear_orphan_blank_nodes]: the subjects are enumerated once, as the
    loop starts; each test and each removal works on the graph as it is then. *)
Definition clear_orphan_blank_nodes_graph (fm : graph) : graph :=
  fold_left orphan_step (subjects fm None None) fm.

Definition clear_orphan_blank_nodes (st : parser) : parser :=
  set_final_mapping (clear_orphan_blank_nodes_graph (final_mapping st)) st.

(** [clear_d2rq_entity] *)
Definition clear_d2rq_entity (g : graph) (cur_d2rq_entity cur_reference : term) : graph :=
  if negb (term_in cur_reference (subjects g (Some RDF_type) None))
  then fold_left (fun g' t => remove g' (Some (subj t)) (Some (pred t)) (Some (obj t)))
                 (triples g (Some cur_d2rq_entity) None None) g
  else g.

Definition clear_references (property : term) (fm : graph) : graph :=
  fold_left (fun g '(s, o) => clear_d2rq_entity g s o)
            (subject_objects fm (Some property)) fm.

(** [clear_orphan_property_bridges] *)
Definition clear_orphan_property_bridges (fm : graph) : graph :=
  clear_references dataStorage
    (clear_references translateWith
       (clear_references refersToClassMap fm)).

(** [store_mapping]: what is handed to the serializer. *)
Definition store_mapping (st : parser) : parser :=
  set_final_mapping (clear_orphan_property_bridges (final_mapping st)) st.

(** A warning of [log_references]: the local names of the expected type
    and of the reference. *)
Definition warning : Type := string * string.

(** [log_references] *)
Definition log_references (fm : graph) (reference_property reference_type : term)
    : list warning :=
  flat_map
    (fun cur_reference =>
       if negb (has_triple fm (cur_reference, RDF_type, reference_type))
       then [(local_name reference_type, local_name cur_reference)]
       else [])
    (objects fm None (Some reference_property)).

(** ** The merge: [parse_file] *)

(** The first loop of [parse_file]: one statement of the parsed file. *)
Definition copy_statement (st : parser) (t : triple) : parser :=
  let '(s, p, o) := t in
  let st :=
    if bool_decide (s ∉ translationtable_set st ∪ database_set st)
    then set_final_mapping (add (s, p, o) (final_mapping st)) st
    else st in
  if term_eqb o ClassMap then add_classmap s st else st.

Definition copy_statements (cur_graph : graph) (st : parser) : parser :=
  fold_left copy_statement cur_graph st.

Definition resolve_classmap (w : World) (file_path : string) (st : parser)
    (cur_classmap : term) : result parser :=
  if bool_decide (cur_classmap ∉ classmap_set st)
  then retrieve_references w file_path cur_classmap (add_classmap cur_classmap st)
  else Ok st.

Definition resolve_translationtable (w : World) (file_path : string) (st : parser)
    (cur_translationtable : term) : result parser :=
  if bool_decide (cur_translationtable ∉ translationtable_set st)
  then retrieve_references w file_path cur_translationtable
         (add_translationtable cur_translationtable st)
  else Ok st.

Definition resolve_database (w : World) (file_path : string) (st : parser)
    (cur_database : term) : result parser :=
  if bool_decide (cur_database ∉ database_set st)
  then retrieve_references w file_path cur_database (add_database cur_database st)
  else Ok st.

(** The body of [if cur_graph:] *)
Definition merge_graph (w : World) (file_path : string) (cur_graph : parsed)
    (st : parser) : result parser :=
  let g := p_triples cur_graph in
  let st := copy_statements g st in
  let st := add_declared_namespaces cur_graph st in
  st ← for_each (resolve_classmap w file_path)
          (objects g None (Some refersToClassMap)) st;
  st ← for_each (resolve_translationtable w file_path)
          (objects g None (Some translateWith)) st;
  for_each (resolve_database w file_path)
          (objects g None (Some dataStorage)) st.

(** [parse_file] *)
Definition parse_file (w : World) (tmp_dir : option string) (file_path : string)
    (st : parser) : result parser :=
  cur_graph ← validate_file w file_path tmp_dir;
  st ← match graph_true cur_graph with
        | Some g => merge_graph w file_path g st
        | None => Ok st
        end;
  Ok (clear_orphan_blank_nodes st).

(** The files [parse_path_list] merges for one entry of the path list. *)
Definition files_of_path (w : World) (cur_path : string) : list string :=
  if isdir w cur_path then
    flat_map (fun '(cur_dir, _, cur_files) =>
                List.map (fun cur_file => cur_dir +:+ Path.sep +:+ cur_file)
                  (List.filter (fun cur_file => bool_decide (is_Some (Re.search rdf_suffix_re cur_file)))
                     cur_files))
             (os_walk w cur_path)
  else [cur_path].

(** The merging loop of [parse_path_list]. *)
Definition parse_paths (w : World) (tmp_dir : option string) (path_list : list string)
    (st : parser) : result parser :=
  for_each (fun st file_path => parse_file w tmp_dir file_path st)
           (flat_map (files_of_path w) path_list) st.

(** [parse_path_list]: the merge, then the three reports. *)
Definition parse_path_list (w : World) (tmp_dir : option string) (path_list : list string)
    (st : parser) : result (parser * list warning) :=
  st ← parse_paths w tmp_dir path_list st;
  Ok (st,
      log_references (final_mapping st) refersToClassMap ClassMap
      ++ log_references (final_mapping st) translateWith TranslationTable
      ++ log_references (final_mapping st) dataStorage Database).

(** ** The properties the specification asks for *)

(** No blank node is the subject of a statement without being the object
    of one. *)
Definition orphan_free (g : graph) : Prop :=
  ∀ t, In t g → is_bnode (subj t) = true → In (subj t) (objects g None None).

Definition is_reference_property (p : term) : Prop :=
  p = refersToClassMap ∨ p = translateWith ∨ p = dataStorage.

(** Every reference made with one of the three properties points to a
    resource that has an [rdf:type] statement. *)
Definition bridges_resolved (g : graph) : Prop :=
  ∀ t, In t g → is_reference_property (pred t) →
       In (obj t) (subjects g (Some RDF_type) None).

(** [id] is in one of the three sets of resolved references. *)
Definition resolved (st : parser) (id : term) : Prop :=
  id ∈ classmap_set st ∨ id ∈ translationtable_set st ∨ id ∈ database_set st.

(** Going from [st] to [st'] put a new statement about [id] into the
    final mapping. *)
Definition merged_again (st st' : parser) (id : term) : Prop :=
  ∃ t, subj t = id ∧ In t (final_mapping st') ∧ ¬ In t (final_mapping st).

(** How often a trace made the scratch copy. *)
Definition fallback_attempts (tr : list event) : nat :=
  List.length (List.filter (fun e => match e with EvCopy _ _ => true | _ => false end) tr).

(** No format loads the file. *)
Definition unrecognized (w : World) (path content : string) : Prop :=
  ∀ f, ∃ why, w_load w f path content = inr why.

(** The failure to load comes from the characters of the path. *)
Definition path_failure (w : World) (path content : string) : Prop :=
  ∃ f, w_load w f path content = inr BadPath.

(** [path] names a file that lies in the directory [dir] itself. *)
Definition directly_in (w : World) (dir path : string) : Prop :=
  ∃ es f, w_dir w dir = Some es ∧ In f (file_names es) ∧ path = dir +:+ Path.sep +:+ f.

(** A file name without its extension, the part from the last dot on. *)
Definition name_before_extension (f : string) : string :=
  match before_last "." f with
  | Some s => s
  | None => f
  end.

(** The URI namer as the specification words it: what follows the last
    fragment separator, then what follows the last path separator. *)
Definition local_name_spec (s : string) : string :=
  let s1 := match after_last "#" s with Some t => t | None => s end in
  match after_last "/" s1 with
  | Some t => t
  | None => s1
  end.

(** What [local_name] computes on a text without a line break: the part
    after the first ["#"] when it is not empty, then the part after the last
    ["/"] when it is not empty. *)
Definition nonempty_or (fallback : string) (o : option string) : string :=
  match o with
  | Some (String a t) => String a t
  | _ => fallback
  end.

Definition after_first_sharp_last_slash (s : string) : string :=
  let s1 := nonempty_or s (after_first "#" s) in
  nonempty_or s1 (after_last "/" s1).

Fixpoint count_char (c : ascii) (s : string) : nat :=
  match s with
  | EmptyString => 0
  | String a s' => (if ascii_eqb a c then 1 else 0) + count_char c s'
  end.


(** ** Worlds and mappings used as examples *)

Module Ex.

Definition ex (name : string) : term := URIRef ("http://ex.org/" +:+ name).

Definition b1 : term := BNode "b1".
Definition b2 : term := BNode "b2".

(** A chain of blank nodes nothing points to: [b1] refers to [b2]; the
    store lists the statement of [b2] first. *)
Definition chain_mapping : graph :=
  [(b2, ex "q", Literal "x"); (b1, ex "p", b2)].

(** A property bridge that refers to a class map whose data store was
    never resolved. *)
Definition dangling_mapping : graph :=
  [(ex "PB", RDF_type, d2rq "PropertyBridge");
   (ex "PB", refersToClassMap, ex "CM");
   (ex "CM", RDF_type, ClassMap);
   (ex "CM", dataStorage, ex "DB")].

Definition turtle_only (content : string) (g : graph) (f : format) (c : string)
    : parsed + load_failure :=
  match f with
  | Turtle =>
      if String.eqb c content
      then inl {| p_triples := g; p_namespaces := [("d2rq", str (d2rq ""))] |}
      else inr BadSyntax
  | _ => inr BadSyntax
  end.

(** Directory [d] holds [m.ttl], a class map [m] with the chain above,
    and [n.ttl], which declares no resource called [n]. *)
Definition chain_world : World :=
  {| w_dir := fun p => if String.eqb p "d" then Some [File "m.ttl"; File "n.ttl"] else None;
     w_file := fun p =>
       if String.eqb p "d/m.ttl" then Some "m"
       else if String.eqb p "d/n.ttl" then Some "n" else None;
     w_load := fun f _ c =>
       if String.eqb c "m"
       then turtle_only "m" ((ex "m", RDF_type, ClassMap) :: chain_mapping) f c
       else turtle_only "n" [(ex "other", RDF_type, ClassMap)] f c |}.

(** Directory [d] holds [PB.ttl] alone: the bridge, its class map, and a
    data store [DB] that no file describes. *)
Definition dangling_world : World :=
  {| w_dir := fun p => if String.eqb p "d" then Some [File "PB.ttl"] else None;
     w_file := fun p => if String.eqb p "d/PB.ttl" then Some "pb" else None;
     w_load := fun f _ c => turtle_only "pb" dangling_mapping f c |}.

End Ex.

(** [__load_graph] fails: no format loads the content through this path. *)
Definition all_formats_fail (w : World) (path content : string) : bool :=
  forallb (fun f => match w_load w f path content with inl _ => false | inr _ => true end)
          formats.

Module Ex2.

(** [d/A.ttl] refers to the class map [CM]; no file of [d] is called [CM].
    [e/CM.ttl] describes [CM]. *)
Definition classmap_world : World :=
  {| w_dir := fun p =>
       if String.eqb p "d" then Some [File "A.ttl"]
       else if String.eqb p "e" then Some [File "CM.ttl"] else None;
     w_file := fun p =>
       if String.eqb p "d/A.ttl" then Some "a"
       else if String.eqb p "e/CM.ttl" then Some "cm" else None;
     w_load := fun f _ c =>
       if String.eqb c "a"
       then Ex.turtle_only "a"
              [(Ex.ex "A", RDF_type, d2rq "PropertyBridge");
               (Ex.ex "A", refersToClassMap, Ex.ex "CM")] f c
       else Ex.turtle_only "cm"
              [(Ex.ex "CM", RDF_type, ClassMap);
               (Ex.ex "CM", d2rq "class", Ex.ex "Person")] f c |}.

(** [d/a.ttl] holds text that is RDF in no format; its path is plain
    ASCII.  [tmp] is a directory. *)
Definition junk_world : World :=
  {| w_dir := fun p =>
       if String.eqb p "d" then Some [File "a.ttl"]
       else if String.eqb p "tmp" then Some [] else None;
     w_file := fun p => if String.eqb p "d/a.ttl" then Some "junk" else None;
     w_load := fun _ _ _ => inr BadSyntax |}.

End Ex2.

Module Ex3.

(** [d] holds [map.ttl], which refers to the class map [Foo], and a
    subdirectory [Foo.d] with the file [x.ttl]; no file of [d] itself is
    called [Foo]. *)
Definition subdir_world : World :=
  {| w_dir := fun p =>
       if String.eqb p "d" then Some [Dir "Foo.d" [File "x.ttl"]; File "map.ttl"]
       else if String.eqb p "d/Foo.d" then Some [File "x.ttl"] else None;
     w_file := fun p =>
       if String.eqb p "d/map.ttl" then Some "map"
       else if String.eqb p "d/Foo.d/x.ttl" then Some "x" else None;
     w_load := fun f _ c =>
       if String.eqb c "map"
       then Ex.turtle_only "map"
              [(Ex.ex "map", RDF_type, d2rq "PropertyBridge");
               (Ex.ex "map", refersToClassMap, Ex.ex "Foo")] f c
       else Ex.turtle_only "x"
              [(Ex.ex "x", RDF_type, ClassMap);
               (Ex.ex "Foo", RDF_type, ClassMap)] f c |}.

(** [d] holds one file, [Foo.v2.ttl]. *)
Definition versioned_dir : World :=
  {| w_dir := fun p => if String.eqb p "d" then Some [File "Foo.v2.ttl"] else None;
     w_file := fun p => if String.eqb p "d/Foo.v2.ttl" then Some "foo" else None;
     w_load := fun f _ c =>
       Ex.turtle_only "foo" [(Ex.ex "Foo", RDF_type, ClassMap)] f c |}.

End Ex3.

(** What deleting ["\..+$"] leaves of a text without a line break: the
    text up to the first dot that something follows. *)
Fixpoint cut_at_dot (s : string) : string :=
  match s with
  | EmptyString => EmptyString
  | String a s' =>
      if ascii_eqb a "." && negb (String.eqb s' "")
      then EmptyString
      else String a (cut_at_dot s')
  end.

(** The graph has an [rdf:type] statement about a resource of this local name. *)
Definition declares (g : graph) (name : string) : Prop :=
  ∃ s o, In (s, RDF_type, o) g ∧ local_name s = name.

Module Ex4.

Definition nl : string := String newline EmptyString.

(** A file whose name has two dots and a line break between them. *)
Definition broken_name : string := "a.b" +:+ nl +:+ "c.d".

Definition broken_world : World :=
  {| w_dir := fun p => if String.eqb p "d" then Some [File broken_name] else None;
     w_file := fun p => if String.eqb p ("d/" +:+ broken_name) then Some "x" else None;
     w_load := fun f _ c =>
       Ex.turtle_only "x" [(Ex.ex ("a.b" +:+ nl +:+ "c"), RDF_type, ClassMap)] f c |}.

End Ex4.

Module Ex5.

Definition map_graph : parsed :=
  {| p_triples := [(Ex.ex "map", RDF_type, ClassMap)];
     p_namespaces := [("d2rq", str (d2rq ""))] |}.

(** [d/map.v2.ttl] declares the class map [map]. *)
Definition versioned_world : World :=
  {| w_dir := fun p => if String.eqb p "d" then Some [File "map.v2.ttl"] else None;
     w_file := fun p => if String.eqb p "d/map.v2.ttl" then Some "map" else None;
     w_load := fun f _ c => Ex.turtle_only "map" (p_triples map_graph) f c |}.

End Ex5.

(** ** Invariants of the merge *)



(** [b] has everything [a] has. *)
Definition extends (a b : parser) : Prop :=
  incl (final_mapping a) (final_mapping b)
  ∧ classmap_set a ⊆ classmap_set b
  ∧ translationtable_set a ⊆ translationtable_set b
  ∧ database_set a ⊆ database_set b.



Module Ex6.

Definition b : term := BNode "b".

(** Two files of one directory whose graphs share the blank node [b]:
    [A.ttl] says something about [b], [B.ttl] refers to [b]. *)
Definition shared_world : World :=
  {| w_dir := fun p => if String.eqb p "d" then Some [File "A.ttl"; File "B.ttl"] else None;
     w_file := fun p =>
       if String.eqb p "d/A.ttl" then Some "a"
       else if String.eqb p "d/B.ttl" then Some "b" else None;
     w_load := fun f _ c =>
       if String.eqb c "a"
       then Ex.turtle_only "a"
              [(Ex.ex "A", RDF_type, ClassMap); (b, Ex.ex "p", Literal "x")] f c
       else Ex.turtle_only "b"
              [(Ex.ex "B", RDF_type, ClassMap); (Ex.ex "B", Ex.ex "q", b)] f c |}.

Definition map_graph : graph :=
  [(Ex.ex "map", RDF_type, ClassMap); (Ex.ex "map", dataStorage, Ex.ex "db")].

Definition db_graph : graph :=
  [(Ex.ex "db", RDF_type, Database); (Ex.ex "db", d2rq "jdbcDSN", Literal "jdbc:mysql://h/db")].

(** Scenario A: [map.ttl] declares a class map stored in [db]; [db.ttl]
    beside it declares the database. *)
Definition scenario_a : World :=
  {| w_dir := fun p => if String.eqb p "d" then Some [File "db.ttl"; File "map.ttl"] else None;
     w_file := fun p =>
       if String.eqb p "d/map.ttl" then Some "map"
       else if String.eqb p "d/db.ttl" then Some "db" else None;
     w_load := fun f _ c =>
       if String.eqb c "map"
       then Ex.turtle_only "map" map_graph f c
       else Ex.turtle_only "db" db_graph f c |}.

End Ex6.

(** No statement links one blank node to another one. *)
Definition chain_free (g : graph) : Prop :=
  ∀ t, In t g → is_bnode (subj t) = true → is_bnode (obj t) = true → obj t = subj t.

(** No resource that a reference points to makes a reference itself. *)
Definition targets_plain (g : graph) : Prop :=
  ∀ t u, In t g → In u g →
         is_reference_property (pred t) → is_reference_property (pred u) →
         subj u ≠ obj t.

(** One round of a loop of [clear_orphan_property_bridges]. *)
Definition bridge_step (g : graph) (so : term * term) : graph :=
  clear_d2rq_entity g so.1 so.2.

(** ** Further notions for the loader and the merge *)

(** The format loads the content through this path. *)
Definition loads_in (w : World) (path content : string) (f : format) : bool :=
  match w_load w f path content with
  | inl _ => true
  | inr _ => false
  end.

(** How often a trace removed a file. *)
Definition removals (tr : list event) : nat :=
  List.length (List.filter (fun e => match e with EvRemove _ => true | _ => false end) tr).


(** The statement is one of a graph the loader can hand out. *)
Definition loaded (w : World) (t : triple) : Prop :=
  ∃ f path content g, w_load w f path content = inl g ∧ In t (p_triples g).

(** The bindings of [b] are those of [a] followed by further ones. *)
Definition bindings_grow (a b : parser) : Prop :=
  ∃ l, bound_namespaces b = bound_namespaces a ++ l.

(** The last character of a text is a slash. *)
Fixpoint ends_with_slash (s : string) : bool :=
  match s with
  | EmptyString => false
  | String a EmptyString => ascii_eqb a "/"
  | String _ s' => ends_with_slash s'
  end.

(** The extensions [parse_path_list] looks for in a directory. *)
Definition rdf_extensions : list string := ["rdf"; "owl"; "ttl"; "n3"].

Module Ex7.


End Ex7.

(** From [a] to [b] nothing about a named resource was lost: the
    statements whose subject is not a blank node are kept, and the three
    sets and the bindings have only grown. *)
Definition grows (a b : parser) : Prop :=
  (∀ t, In t (final_mapping a) → is_bnode (subj t) = false → In t (final_mapping b))
  ∧ classmap_set a ⊆ classmap_set b
  ∧ translationtable_set a ⊆ translationtable_set b
  ∧ database_set a ⊆ database_set b
  ∧ bindings_grow a b.

(** Every statement of [b] is one of [a] or one the loader handed out. *)
Definition only_loaded (w : World) (a b : parser) : Prop :=
  ∀ t, In t (final_mapping b) → In t (final_mapping a) ∨ loaded w t.

(** What a step of the merge does to the parser: nothing is removed,
    the sets and bindings grow, and what is new was loaded. *)
Definition merge_step (w : World) (a b : parser) : Prop :=
  extends a b ∧ bindings_grow a b ∧ only_loaded w a b.

Module Ex8.

(** [d/A.ttl] refers to the class map [CM].  [d/CM.ttl] beside it
    describes [CM], but the loader chokes on its path in every format; read
    through the scratch path the same content is Turtle.  [tmp] is a
    directory. *)
Definition scratch_only_world : World :=
  {| w_dir := fun p =>
       if String.eqb p "d" then Some [File "A.ttl"; File "CM.ttl"]
       else if String.eqb p "tmp" then Some [] else None;
     w_file := fun p =>
       if String.eqb p "d/A.ttl" then Some "a"
       else if String.eqb p "d/CM.ttl" then Some "cm" else None;
     w_load := fun f p c =>
       if String.eqb c "a"
       then Ex.turtle_only "a"
              [(Ex.ex "A", RDF_type, d2rq "PropertyBridge");
               (Ex.ex "A", refersToClassMap, Ex.ex "CM")] f c
       else if String.eqb p "tmp/tmp_rdf_file.rdf"
       then Ex.turtle_only "cm" [(Ex.ex "CM", RDF_type, ClassMap)] f c
       else inr BadPath |}.

End Ex8.

(** ** Blank nodes of a later parse *)






(** The final mapping makes a reference to [o] with [reference_property]
    and has no statement that types [o] as [reference_type]. *)
Definition dangling (fm : graph) (reference_property reference_type o : term) : Prop :=
  (∃ s, In (s, reference_property, o) fm) ∧ ¬ In (o, RDF_type, reference_type) fm.

Module Ex9.



End Ex9.

(** * Lemmas and theorems *)

(** ** Membership tests *)

Lemma term_eqb_true a b : term_eqb a b = true ↔ a = b.
Proof. unfold term_eqb. apply bool_decide_eq_true. Qed.

Lemma term_in_In x l : term_in x l = true ↔ In x l.
Proof.
  unfold term_in. rewrite existsb_exists. split.
  - intros (y & Hy & Heq). apply term_eqb_true in Heq. by subst.
  - intros H. exists x. split; [done | by apply term_eqb_true].
Qed.

Lemma has_triple_In g t : has_triple g t = true ↔ In t g.
Proof.
  unfold has_triple, triple_eqb. rewrite existsb_exists. split.
  - intros (y & Hy & Heq). apply bool_decide_eq_true in Heq. by subst.
  - intros H. exists t. split; [done | by apply bool_decide_eq_true].
Qed.

Lemma in_add t u g : In t (add u g) ↔ t = u ∨ In t g.
Proof.
  unfold add. destruct (has_triple g u) eqn:E.
  - apply has_triple_In in E. split; [auto | intros [-> | ?]; done].
  - rewrite in_app_iff. simpl. split; [intros [?|[?|[]]]; auto | intros [->|?]; auto].
Qed.


Lemma in_remove t g s p o : In t (remove g s p o) → In t g.
Proof. unfold remove. rewrite filter_In. tauto. Qed.

(** ** The orphan pass *)

Lemma orphan_steps_incl l : ∀ g t, In t (fold_left orphan_step l g) → In t g.
Proof.
  induction l as [|s l IH]; intros g t H; [done|].
  simpl in H. apply IH in H. unfold orphan_step in H.
  destruct (_ && _); [by eapply in_remove | done].
Qed.

Lemma clear_orphan_blank_nodes_incl g t :
  In t (clear_orphan_blank_nodes_graph g) → In t g.
Proof. apply orphan_steps_incl. Qed.


Lemma in_subjects s g p o : In s (subjects g p o) → ∃ t, In t g ∧ subj t = s.
Proof.
  unfold subjects, triples. rewrite in_map_iff. intros (t & <- & Ht).
  apply filter_In in Ht. exists t. tauto.
Qed.


(** C3.  The orphan pass does not establish the orphan invariant on a
    chain of blank nodes: when the store lists the statement of [b2] before
    the statement of [b1] that points to it, [b2] is kept (it is an object
    at that moment), then [b1] is removed, and [b2] stays behind as a
    subject that nothing refers to.  The same mapping arises from merging
    the file [d/m.ttl] of [Ex.chain_world]. *)
Theorem clear_orphan_blank_nodes_chain :
  clear_orphan_blank_nodes_graph Ex.chain_mapping = [(Ex.b2, Ex.ex "q", Literal "x")]
  ∧ ¬ orphan_free (clear_orphan_blank_nodes_graph Ex.chain_mapping)
  ∧ (∃ st, parse_file Ex.chain_world None "d/m.ttl" new_parser = Ok st
           ∧ ¬ orphan_free (final_mapping st)).
Proof.
  split; [reflexivity|]. split.
  - intros H.
    assert (Hin : In (Ex.b2, Ex.ex "q", Literal "x")
                     (clear_orphan_blank_nodes_graph Ex.chain_mapping))
      by (vm_compute; auto).
    pose proof (H _ Hin eq_refl) as Hobj.
    vm_compute in Hobj. destruct Hobj as [Hobj|[]]. discriminate Hobj.
  - eexists. split; [vm_compute; reflexivity|].
    intros H.
    assert (Hin : In (Ex.b2, Ex.ex "q", Literal "x")
                     [(Ex.ex "m", RDF_type, ClassMap); (Ex.b2, Ex.ex "q", Literal "x")])
      by (simpl; auto).
    pose proof (H _ Hin eq_refl) as Hobj.
    vm_compute in Hobj. destruct Hobj as [Hobj|[Hobj|[]]]; discriminate Hobj.
Qed.

(** C4.  The dangling-bridge pass does not establish the dangling-bridge
    invariant when the removal of one referencing entity takes away the type
    of a resource another entity refers to.  In [Ex.dangling_mapping] the
    first loop keeps the bridge [PB], whose class map [CM] is typed at that
    moment; the third loop removes every statement of [CM], whose data
    store never got a type; [PB] is left referring to an untyped [CM].
    Merging the directory [d] of [Ex.dangling_world] and storing the result
    goes through exactly this. *)
Theorem clear_orphan_property_bridges_dangling :
  clear_orphan_property_bridges Ex.dangling_mapping
    = [(Ex.ex "PB", RDF_type, d2rq "PropertyBridge");
       (Ex.ex "PB", refersToClassMap, Ex.ex "CM")]
  ∧ ¬ bridges_resolved (clear_orphan_property_bridges Ex.dangling_mapping)
  ∧ (∃ st, parse_paths Ex.dangling_world None ["d"] new_parser = Ok st
           ∧ final_mapping st = Ex.dangling_mapping
           ∧ ¬ bridges_resolved (final_mapping (store_mapping st))).
Proof.
  assert (Hbad : ¬ bridges_resolved
                    [(Ex.ex "PB", RDF_type, d2rq "PropertyBridge");
                     (Ex.ex "PB", refersToClassMap, Ex.ex "CM")]).
  { intros H.
    assert (Hin : In (Ex.ex "PB", refersToClassMap, Ex.ex "CM")
                     [(Ex.ex "PB", RDF_type, d2rq "PropertyBridge");
                      (Ex.ex "PB", refersToClassMap, Ex.ex "CM")])
      by (simpl; auto).
    pose proof (H _ Hin (or_introl eq_refl)) as Hty.
    vm_compute in Hty. destruct Hty as [Hty|[]]. discriminate Hty. }
  split; [reflexivity|]. split; [exact Hbad|].
  eexists. split; [vm_compute; reflexivity|]. split; [reflexivity|exact Hbad].
Qed.

(** C9.  Merging a file that does not validate adds nothing and leaves the
    three sets and the namespace history alone, yet it is not a no-op: the
    orphan pass still runs on the final mapping, and it can remove what
    earlier merges left.  After [d/m.ttl] of [Ex.chain_world] the statement
    of [b2] is in the final mapping; merging the invalid [d/n.ttl] next
    removes it. *)
Theorem parse_file_invalid_file :
  (∀ w tmp_dir file_path st,
      validate_file w file_path tmp_dir = Ok None →
      ∃ st', parse_file w tmp_dir file_path st = Ok st'
        ∧ final_mapping st' = clear_orphan_blank_nodes_graph (final_mapping st)
        ∧ (∀ t, In t (final_mapping st') → In t (final_mapping st))
        ∧ classmap_set st' = classmap_set st
        ∧ translationtable_set st' = translationtable_set st
        ∧ database_set st' = database_set st
        ∧ bound_namespaces st' = bound_namespaces st)
  ∧ (∃ st0 st1,
        parse_file Ex.chain_world None "d/m.ttl" new_parser = Ok st0
        ∧ validate_file Ex.chain_world "d/n.ttl" None = Ok None
        ∧ parse_file Ex.chain_world None "d/n.ttl" st0 = Ok st1
        ∧ In (Ex.b2, Ex.ex "q", Literal "x") (final_mapping st0)
        ∧ ¬ In (Ex.b2, Ex.ex "q", Literal "x") (final_mapping st1)).
Proof.
  split.
  - intros w tmp_dir file_path st Hv.
    exists (clear_orphan_blank_nodes st).
    unfold parse_file. rewrite Hv. simpl.
    repeat split; try reflexivity.
    intros t. apply clear_orphan_blank_nodes_incl.
  - do 2 eexists.
    split; [vm_compute; reflexivity|].
    split; [vm_compute; reflexivity|].
    split; [vm_compute; reflexivity|].
    split; [simpl; auto|].
    simpl. intros [H|[]]. discriminate H.
Qed.

Lemma parse_file_invalid_file_witness :
  validate_file Ex.chain_world "d/n.ttl" None = Ok None
  ∧ ∃ st', parse_file Ex.chain_world None "d/n.ttl" new_parser = Ok st'
        ∧ final_mapping st' = clear_orphan_blank_nodes_graph (final_mapping new_parser)
        ∧ (∀ t, In t (final_mapping st') → In t (final_mapping new_parser))
        ∧ classmap_set st' = classmap_set new_parser
        ∧ translationtable_set st' = translationtable_set new_parser
        ∧ database_set st' = database_set new_parser
        ∧ bound_namespaces st' = bound_namespaces new_parser.
Proof.
  split; [vm_compute; reflexivity|].
  apply (proj1 parse_file_invalid_file Ex.chain_world None "d/n.ttl" new_parser).
  vm_compute; reflexivity.
Defined.

(** Decide a closed, decidable statement by running its decision. *)
Ltac by_compute :=
  match goal with
  | |- ?P => refine (bool_decide_eq_true_1 P _); vm_compute; reflexivity
  end.

(** ** The reference resolver and the reporter *)

Lemma in_objects o g s p : In o (objects g s p) ↔ ∃ t, In t (triples g s p None) ∧ obj t = o.
Proof.
  unfold objects. rewrite in_map_iff. split; intros (t & H1 & H2); exists t; tauto.
Qed.

Lemma in_triples t g s p o :
  In t (triples g s p o) ↔
  In t g ∧ opt_match s (subj t) = true ∧ opt_match p (pred t) = true
         ∧ opt_match o (obj t) = true.
Proof.
  unfold triples. rewrite filter_In, !andb_true_iff. tauto.
Qed.

Lemma opt_match_some x y : opt_match (Some x) y = true ↔ x = y.
Proof. apply term_eqb_true. Qed.

(** ** The copy loop of [parse_file] *)

Lemma copy_statement_sets st t :
  translationtable_set (copy_statement st t) = translationtable_set st
  ∧ database_set (copy_statement st t) = database_set st.
Proof.
  destruct t as [[s p] o]. unfold copy_statement.
  destruct (bool_decide _); destruct (term_eqb o ClassMap); done.
Qed.

Lemma copy_statement_final_mapping st t u :
  In u (final_mapping (copy_statement st t)) →
  In u (final_mapping st)
  ∨ (u = t ∧ subj t ∉ translationtable_set st ∪ database_set st).
Proof.
  destruct t as [[s p] o]. unfold copy_statement.
  destruct (bool_decide _) eqn:E; destruct (term_eqb o ClassMap); simpl; auto.
  all: apply bool_decide_eq_true in E.
  all: rewrite in_add; intros [->|?]; auto.
Qed.

(** C1, as the code has it.  The copy loop of [parse_file] consults the
    translation-table and data-store sets only: a statement whose subject is
    in one of these two sets is never copied from a freshly parsed file, and
    the loop leaves both sets as they are.  Membership in the class-map set
    does not hold a statement back. *)
Theorem copy_statements_skips_resolved g st id :
  id ∈ translationtable_set st ∪ database_set st →
  (∀ t, In t (final_mapping (copy_statements g st)) → subj t = id →
        In t (final_mapping st))
  ∧ translationtable_set (copy_statements g st) = translationtable_set st
  ∧ database_set (copy_statements g st) = database_set st.
Proof.
  unfold copy_statements. revert st.
  induction g as [|u g IH]; intros st Hid; [done|].
  simpl. destruct (copy_statement_sets st u) as [Htt Hdb].
  destruct (IH (copy_statement st u)) as (Hfm & Htt' & Hdb').
  { by rewrite Htt, Hdb. }
  split; [|split; congruence].
  intros t Ht Hs. apply Hfm in Ht; [|done].
  apply copy_statement_final_mapping in Ht as [Ht | [-> Hnot]]; [done|].
  rewrite Hs in Hnot. contradiction.
Qed.

Lemma copy_statements_skips_resolved_witness :
  let st := add_database (Ex.ex "DB") new_parser in
  let g := [(Ex.ex "DB", RDF_type, Database)] in
  Ex.ex "DB" ∈ translationtable_set st ∪ database_set st
  ∧ ((∀ t, In t (final_mapping (copy_statements g st)) → subj t = Ex.ex "DB" →
           In t (final_mapping st))
     ∧ translationtable_set (copy_statements g st) = translationtable_set st
     ∧ database_set (copy_statements g st) = database_set st).
Proof.
  split; [by_compute|].
  apply (copy_statements_skips_resolved
           [(Ex.ex "DB", RDF_type, Database)]
           (add_database (Ex.ex "DB") new_parser) (Ex.ex "DB")).
  by_compute.
Defined.

(** C1, as the specification states it, fails for the class-map set.  After
    [d/A.ttl] the class map [CM] is in the class-map set; the merge of
    [e/CM.ttl] that follows adds the statements about [CM]. *)
Lemma merged_again_after_classmap :
  ∃ st0 st1,
    parse_file Ex2.classmap_world None "d/A.ttl" new_parser = Ok st0
    ∧ resolved st0 (Ex.ex "CM")
    ∧ parse_file Ex2.classmap_world None "e/CM.ttl" st0 = Ok st1
    ∧ merged_again st0 st1 (Ex.ex "CM").
Proof.
  do 2 eexists.
  split; [vm_compute; reflexivity|].
  split; [left; by_compute|].
  split; [vm_compute; reflexivity|].
  exists (Ex.ex "CM", RDF_type, ClassMap).
  split; [reflexivity|]. split; [simpl; auto|].
  simpl. intros [H|[H|[]]]; discriminate H.
Qed.

(** ** The loader and its scratch copy *)

Lemma load_graph_from_fails w path content fs :
  forallb (fun f => match w_load w f path content with inl _ => false | inr _ => true end) fs
    = true →
  load_graph_from w path content fs = (Raise IOError2, List.map (EvLoad path) fs).
Proof.
  induction fs as [|f fs IH]; simpl; [done|].
  destruct (w_load w f path content); [done|]. simpl. intros H.
  by rewrite (IH H).
Qed.

Lemma load_graph_from_succeeds w path content fs :
  forallb (fun f => match w_load w f path content with inl _ => false | inr _ => true end) fs
    = false →
  ∃ g tr, load_graph_from w path content fs = (Ok g, tr) ∧ fallback_attempts tr = 0.
Proof.
  induction fs as [|f fs IH]; simpl; [done|].
  destruct (w_load w f path content) as [g|why]; simpl.
  - intros _. by exists g, [EvLoad path f].
  - intros H. destruct (IH H) as (g & tr & -> & Htr). by exists g, (EvLoad path f :: tr).
Qed.

Lemma fallback_attempts_app tr1 tr2 :
  fallback_attempts (tr1 ++ tr2) = fallback_attempts tr1 + fallback_attempts tr2.
Proof. unfold fallback_attempts. by rewrite List.filter_app, List.length_app. Qed.

Lemma fallback_attempts_loads path fs : fallback_attempts (List.map (EvLoad path) fs) = 0.
Proof. by induction fs. Qed.

Lemma load_graph_from_no_copy w path content fs :
  fallback_attempts (snd (load_graph_from w path content fs)) = 0.
Proof.
  induction fs as [|f fs IH]; simpl; [done|].
  destruct (w_load w f path content); [done|].
  by destruct (load_graph_from w path content fs).
Qed.

(** C7, as the code has it.  The scratch copy is made exactly once when
    the file exists, no format loads it and a scratch directory is
    configured, whatever made the loads fail; in every other case it is not
    made at all.  Without a scratch directory the failure to load in any
    format propagates as the error of [__load_graph]. *)
Theorem load_graph_from_format_fallback w rdf_file_path tmp_dir :
  fallback_attempts (snd (load_graph_from_format_trace w rdf_file_path tmp_dir))
    = match w_file w rdf_file_path, tmp_dir with
      | Some content, Some _ =>
          if all_formats_fail w rdf_file_path content then 1 else 0
      | _, _ => 0
      end
  ∧ (∀ content, w_file w rdf_file_path = Some content →
       all_formats_fail w rdf_file_path content = true →
       load_graph_from_format w rdf_file_path None = Raise IOError2).
Proof.
  unfold load_graph_from_format, load_graph_from_format_trace, load_graph, all_formats_fail.
  split.
  - destruct (w_file w rdf_file_path) as [content|]; [|done].
    destruct (forallb _ formats) eqn:E.
    + rewrite (load_graph_from_fails _ _ _ _ E).
      destruct tmp_dir as [d|]; [|apply fallback_attempts_loads].
      destruct (can_copy w d).
      * pose proof (load_graph_from_no_copy w
          (d +:+ Path.sep +:+ "tmp_rdf_file.rdf") content formats) as Hre.
        destruct (load_graph_from w _ content formats) as [[g|e] tr']; cbn [snd] in *;
          rewrite !fallback_attempts_app, ?fallback_attempts_loads, ?Hre; reflexivity.
      * cbn [snd]. rewrite fallback_attempts_app, fallback_attempts_loads. reflexivity.
    + destruct (load_graph_from_succeeds _ _ _ _ E) as (g & tr & -> & Htr).
      cbn [snd]. rewrite Htr. by destruct tmp_dir.
  - intros content -> E. by rewrite (load_graph_from_fails _ _ _ _ E).
Qed.

(** C7, as the specification states it, fails: the fallback does not wait for a
    failure that comes from the characters of the path.  [d/a.ttl] of
    [Ex2.junk_world] has a plain path and a content no format accepts; with
    a scratch directory configured the copy is made all the same. *)
Lemma fallback_without_path_failure :
  unrecognized Ex2.junk_world "d/a.ttl" "junk"
  ∧ ¬ path_failure Ex2.junk_world "d/a.ttl" "junk"
  ∧ fallback_attempts
      (snd (load_graph_from_format_trace Ex2.junk_world "d/a.ttl" (Some "tmp"))) = 1.
Proof.
  split; [intros f; by exists BadSyntax|].
  split; [|reflexivity].
  intros [f Hf]. discriminate Hf.
Qed.

Lemma load_graph_from_format_fallback_witness :
  load_graph_from_format Ex2.junk_world "d/a.ttl" None = Raise IOError2.
Proof.
  apply (proj2 (load_graph_from_format_fallback Ex2.junk_world "d/a.ttl" None) "junk");
    reflexivity.
Defined.

(** ** The search for the sibling file *)

Lemma ascii_eqb_true a b : ascii_eqb a b = true ↔ a = b.
Proof. unfold ascii_eqb. apply Ascii.eqb_eq. Qed.

Lemma startswith_prefix p s : startswith p s = true ↔ ∃ t, s = p +:+ t.
Proof.
  revert s. induction p as [|a p IH]; intros s; simpl.
  - split; [intros _; by exists s | done].
  - destruct s as [|b s]; simpl.
    + split; [done | intros (t & Ht); discriminate Ht].
    + rewrite andb_true_iff, ascii_eqb_true, IH. split.
      * intros (-> & t & ->). by exists t.
      * intros (t & Ht). injection Ht as -> ->. split; [done | by exists t].
Qed.

Lemma find_first {A} (f : A → bool) l :
  match List.find f l with
  | Some x => ∃ before after, l = before ++ x :: after ∧ f x = true
                              ∧ ∀ y, In y before → f y = false
  | None => ∀ y, In y l → f y = false
  end.
Proof.
  induction l as [|a l IH]; simpl; [done|].
  destruct (f a) eqn:E.
  - exists [], l. done.
  - destruct (List.find f l) as [x|].
    + destruct IH as (before & after & -> & Hx & Hb).
      exists (a :: before), after. repeat split; [done|].
      intros y [<-|Hy]; auto.
    + intros y [<-|Hy]; auto.
Qed.

(** C5, as the code has it.  [complete_file_path] goes through every
    file that [os.walk] reaches from the directory of the incomplete path,
    subdirectories included, and returns the first one whose whole path
    starts with the incomplete path followed by a dot; what comes after that
    dot is not looked at.  It returns nothing exactly when no walked path
    starts so. *)
Theorem complete_file_path_first_match w incomplete_file_path :
  match complete_file_path w incomplete_file_path with
  | Some cur_path =>
      ∃ before after rest,
        walked_paths w (Path.dirname incomplete_file_path) = before ++ cur_path :: after
        ∧ cur_path = (incomplete_file_path +:+ ".") +:+ rest
        ∧ ∀ x, In x before → startswith (incomplete_file_path +:+ ".") x = false
  | None =>
      ∀ x, In x (walked_paths w (Path.dirname incomplete_file_path)) →
           startswith (incomplete_file_path +:+ ".") x = false
  end.
Proof.
  unfold complete_file_path.
  pose proof (find_first (fun cur_path => startswith (incomplete_file_path +:+ ".") cur_path)
                (walked_paths w (Path.dirname incomplete_file_path))) as H.
  destruct (List.find _ _) as [p|]; [|exact H].
  destruct H as (before & after & Hl & Hp & Hb).
  apply startswith_prefix in Hp as (rest & Hrest).
  by exists before, after, rest.
Qed.

(** C5, as the specification states it, fails.  For the reference [Foo] made in
    [d/map.ttl] of [Ex3.subdir_world] the search settles on [d/Foo.d/x.ttl]:
    a file of a subdirectory, whose name without its extension is [x]; the
    resolver then imports the statements of [Foo] from it.  And in
    [Ex3.versioned_dir] the same reference finds [d/Foo.v2.ttl], whose name
    without its extension is [Foo.v2]. *)
Lemma complete_file_path_in_subdirectory :
  Path.dirname "d/map.ttl" +:+ Path.sep +:+ local_name (Ex.ex "Foo") = "d/Foo"
  ∧ complete_file_path Ex3.subdir_world "d/Foo" = Some "d/Foo.d/x.ttl"
  ∧ ¬ directly_in Ex3.subdir_world (Path.dirname "d/map.ttl") "d/Foo.d/x.ttl"
  ∧ name_before_extension (Path.basename "d/Foo.d/x.ttl") ≠ local_name (Ex.ex "Foo")
  ∧ (∃ st, retrieve_references Ex3.subdir_world "d/map.ttl" (Ex.ex "Foo") new_parser = Ok st
           ∧ final_mapping st = [(Ex.ex "Foo", RDF_type, ClassMap)])
  ∧ complete_file_path Ex3.versioned_dir "d/Foo" = Some "d/Foo.v2.ttl"
  ∧ name_before_extension (Path.basename "d/Foo.v2.ttl") ≠ local_name (Ex.ex "Foo").
Proof.
  split; [reflexivity|]. split; [reflexivity|]. split; [|split; [|split; [|split]]].
  - intros (es & f & Hes & Hf & Hp). vm_compute in Hes. injection Hes as <-.
    simpl in Hf. destruct Hf as [<-|[]]. discriminate Hp.
  - vm_compute. discriminate.
  - eexists. split; [vm_compute; reflexivity|reflexivity].
  - reflexivity.
  - vm_compute. discriminate.
Qed.

(** ** The regular expressions *)

Section Regex.

Context {A : Type}.
Implicit Types (kont : Re.cont A) (s : string) (pos : nat) (cap : option string).

Lemma option_orelse_none (x : option A) :
  match x with Some r => Some r | None => None end = x.
Proof. by destruct x. Qed.

(** [ [^c]*c ]: the star stops at the first [c], and nowhere else can the
    [c] that follows it match. *)
Lemma star_until_first c kont s : ∀ pos cap,
  Re.star (Re.CNot c) (Re.run (Re.One (Re.CChar c)) kont) pos cap s
  = match after_first c s with
    | Some rest => kont (S (pos + String.length (before_first c s))) cap rest
    | None => None
    end.
Proof.
  induction s as [|a s IH]; intros pos cap; [done|].
  cbn [Re.star after_first before_first Re.accepts].
  destruct (ascii_eqb a c) eqn:E; cbn [negb].
  - cbn [Re.run Re.accepts]. rewrite E. cbn [String.length]. by rewrite Nat.add_0_r.
  - rewrite IH. cbn [Re.run Re.accepts]. rewrite E, option_orelse_none.
    cbn [String.length]. by rewrite Nat.add_succ_r.
Qed.

End Regex.

Lemma take_str_all s : take_str (String.length s) s = s.
Proof. induction s; simpl; congruence. Qed.

Lemma contains_cons c a s :
  contains c (String a s) = false ↔ ascii_eqb a c = false ∧ contains c s = false.
Proof. simpl. apply orb_false_iff. Qed.

(** [k+$] captured as group 1, on a text without a line break: it matches
    when the text is not empty and lies within the class, and takes it all. *)
Lemma star_to_end k (F : nat → option string) s : ∀ pos cap,
  contains newline s = false →
  Re.star k (fun pos' _ s' => Re.run Re.Eol Re.finish pos' (F pos') s') pos cap s
  = if Re.all_in k s
    then Some {| Re.h_end := pos + String.length s; Re.h_group := F (pos + String.length s) |}
    else None.
Proof.
  induction s as [|a s IH]; intros pos cap Hnl.
  - simpl. by rewrite Nat.add_0_r.
  - apply contains_cons in Hnl as [Ha Hs].
    cbn [Re.star Re.all_in String.length].
    destruct (Re.accepts k a); cbn [andb].
    + rewrite (IH _ _ Hs). rewrite Nat.add_succ_r.
      destruct (Re.all_in k s) eqn:E; [done|].
      cbn beta. cbn [Re.run]. by destruct s.
    + cbn beta. cbn [Re.run]. destruct s; [by rewrite Ha | done].
Qed.

Lemma group_plus_to_end k s pos cap :
  contains newline s = false →
  Re.run (Re.Seq (Re.Group (Re.Plus k)) Re.Eol) Re.finish pos cap s
  = match s with
    | EmptyString => None
    | String _ _ =>
        if Re.all_in k s
        then Some {| Re.h_end := pos + String.length s; Re.h_group := Some s |}
        else None
    end.
Proof.
  intros Hnl. destruct s as [|a s]; [done|].
  apply contains_cons in Hnl as [Ha Hs].
  cbn [Re.run Re.all_in]. destruct (Re.accepts k a); [|done]. cbn [andb].
  etrans; [exact (star_to_end k
             (fun pos' => Some (take_str (pos' - pos) (String a s))) s (S pos) cap Hs)|].
  destruct (Re.all_in k s); [|done].
  cbn [String.length].
  replace (S pos + String.length s - pos) with (S (String.length s)) by lia.
  rewrite Nat.add_succ_r. cbn [take_str]. by rewrite take_str_all.
Qed.

Lemma all_in_dot s : contains newline s = false → Re.all_in Re.CDot s = true.
Proof.
  induction s as [|a s IH]; [done|]. intros H. apply contains_cons in H as [Ha Hs].
  simpl. rewrite Ha. simpl. auto.
Qed.

Lemma all_in_not c s : Re.all_in (Re.CNot c) s = negb (contains c s).
Proof.
  induction s as [|a s IH]; [done|]. simpl. rewrite IH.
  by destruct (ascii_eqb a c).
Qed.

(** A pattern that starts with [^] matches at the start of the text or
    not at all. *)
Lemma search_from_anchored r s : ∀ pos,
  Re.search_from (Re.Seq Re.Bol r) (S pos) s = None.
Proof. induction s as [|a s IH]; intros pos; simpl; [done | apply IH]. Qed.

Lemma search_anchored r s :
  Re.search (Re.Seq Re.Bol r) s = Re.run r Re.finish 0 None s.
Proof.
  unfold Re.search. destruct s as [|a s]; simpl.
  - unfold Re.match_at. simpl. by destruct (Re.run r Re.finish 0 None "").
  - unfold Re.match_at. simpl.
    destruct (Re.run r Re.finish 0 None (String a s)); [done|].
    by rewrite search_from_anchored.
Qed.

Lemma after_first_no_newline c s t :
  after_first c s = Some t → contains newline s = false → contains newline t = false.
Proof.
  revert t. induction s as [|a s IH]; intros t; [done|]. simpl.
  intros H Hnl. apply orb_false_iff in Hnl as [Ha Hs].
  destruct (ascii_eqb a c); [by injection H as <- | auto].
Qed.

(** What ["^[^#]*#(.+)$"] finds in a text without a line break. *)
Lemma search_sharp s :
  contains newline s = false →
  Re.search sharp_re s
  = match after_first "#" s with
    | Some (String a t) =>
        Some {| Re.h_end := String.length s; Re.h_group := Some (String a t) |}
    | _ => None
    end.
Proof.
  intros Hnl. unfold sharp_re. rewrite search_anchored.
  etrans; [exact (star_until_first "#"
             (Re.run (Re.Seq (Re.Group (Re.Plus Re.CDot)) Re.Eol) Re.finish) s 0 None)|].
  destruct (after_first "#" s) as [rest|] eqn:E; [|done].
  pose proof (after_first_no_newline _ _ _ E Hnl) as Hrest.
  rewrite (group_plus_to_end _ _ _ _ Hrest).
  destruct rest as [|a t]; [done|].
  rewrite (all_in_dot _ Hrest). do 2 f_equal.
  clear Hnl Hrest. revert a t E. induction s as [|b s IH]; intros a t E; [done|].
  simpl in *. destruct (ascii_eqb b "#").
  + injection E as ->. simpl. lia.
  + simpl. rewrite <- (IH _ _ E). simpl. lia.
Qed.

Lemma after_last_contains c s :
  contains c s = match after_last c s with Some _ => true | None => false end.
Proof.
  induction s as [|a s IH]; [done|]. simpl. rewrite IH.
  destruct (after_last c s); [by rewrite orb_true_r|].
  rewrite orb_false_r. by destruct (ascii_eqb a c).
Qed.

(** [.*/] followed by [([^/]+)$]: the greedy star gives characters back
    until the slash it stops before is the last one of the text. *)
Lemma star_until_last_slash s : ∀ pos cap,
  contains newline s = false →
  Re.star Re.CDot
    (Re.run (Re.One (Re.CChar "/"))
       (Re.run (Re.Seq (Re.Group (Re.Plus (Re.CNot "/"))) Re.Eol) Re.finish)) pos cap s
  = match after_last "/" s with
    | Some (String a t) =>
        Some {| Re.h_end := pos + String.length s; Re.h_group := Some (String a t) |}
    | _ => None
    end.
Proof.
  induction s as [|a s IH]; intros pos cap Hnl; [done|].
  apply contains_cons in Hnl as [Ha Hs].
  cbn [Re.star Re.accepts after_last String.length]. rewrite Ha. cbn [negb].
  rewrite (IH _ _ Hs). rewrite Nat.add_succ_r.
  pose proof (after_last_contains "/" s) as Hc.
  destruct (after_last "/" s) as [[|b t]|] eqn:E; [| done |].
  - (* the text ends with a slash: no earlier slash can match either *)
    cbn [Re.run Re.accepts]. destruct (ascii_eqb a "/"); [|done].
    etrans; [exact (group_plus_to_end _ s (S pos) cap Hs)|].
    destruct s; [done|]. by rewrite all_in_not, Hc.
  - cbn [Re.run Re.accepts]. destruct (ascii_eqb a "/"); [|done].
    etrans; [exact (group_plus_to_end _ s (S pos) cap Hs)|].
    destruct s as [|b t]; [done|]. by rewrite all_in_not, Hc.
Qed.

(** What ["^.*/([^/]+)$"] finds in a text without a line break. *)
Lemma search_slash s :
  contains newline s = false →
  Re.search slash_re s
  = match after_last "/" s with
    | Some (String a t) =>
        Some {| Re.h_end := String.length s; Re.h_group := Some (String a t) |}
    | _ => None
    end.
Proof.
  intros Hnl. unfold slash_re. rewrite search_anchored.
  exact (star_until_last_slash s 0 None Hnl).
Qed.

Lemma nonempty_or_no_newline s o :
  contains newline s = false →
  (∀ t, o = Some t → contains newline t = false) →
  contains newline (nonempty_or s o) = false.
Proof. intros Hs Ho. destruct o as [[|a t]|]; simpl; auto. by apply (Ho (String a t)). Qed.

(** C6, as the code has it.  On a text without a line break
    [local_name] takes what follows the first ["#"], when something follows
    it, and then what follows the last ["/"], when something follows it;
    otherwise the text stays as it is.  It is a total function, and on the
    three identifiers of the specification it returns ["Foo"]. *)
Theorem local_name_first_sharp_last_slash :
  (∀ s, contains newline s = false →
        local_name_str s = after_first_sharp_last_slash s)
  ∧ local_name (URIRef "http://ex.org/a#Foo") = "Foo"
  ∧ local_name (URIRef "http://ex.org/a/Foo") = "Foo"
  ∧ local_name (URIRef "Foo") = "Foo".
Proof.
  split; [|by repeat split].
  intros s Hnl. unfold local_name_str, after_first_sharp_last_slash.
  rewrite (search_sharp s Hnl).
  set (s1 := nonempty_or s (after_first "#" s)).
  assert (Hs1 : contains newline s1 = false).
  { apply nonempty_or_no_newline; [done|].
    intros t Ht. by apply (after_first_no_newline _ _ _ Ht). }
  assert (Heq : match match after_first "#" s with
                      | Some (String a t) =>
                          Some {| Re.h_end := String.length s;
                                  Re.h_group := Some (String a t) |}
                      | _ => None
                      end with
                | Some sharp_match => Re.group1 sharp_match
                | None => s
                end = s1).
  { unfold s1. by destruct (after_first "#" s) as [[|a t]|]. }
  rewrite Heq, (search_slash s1 Hs1).
  by destruct (after_last "/" s1) as [[|a t]|].
Qed.

Lemma local_name_first_sharp_last_slash_witness :
  contains newline "http://ex.org/a#b#c/d" = false
  ∧ local_name_str "http://ex.org/a#b#c/d"
    = after_first_sharp_last_slash "http://ex.org/a#b#c/d".
Proof.
  split; [reflexivity|].
  apply (proj1 local_name_first_sharp_last_slash). reflexivity.
Defined.

(** C6, as the specification states it, fails when the identifier has two fragment
    separators: the code keeps what follows the first one. *)
Lemma local_name_two_sharps :
  local_name (URIRef "a#b#c") = "b#c"
  ∧ local_name_spec (str (URIRef "a#b#c")) = "c"
  ∧ local_name (URIRef "a#b#c") ≠ local_name_spec (str (URIRef "a#b#c")).
Proof. repeat split. discriminate. Qed.

(** ** The validator *)

Lemma star_cap_const {A} k (kont : Re.cont A) s : ∀ pos cap,
  Re.star k kont pos cap s = Re.star k (fun pos' _ s' => kont pos' cap s') pos cap s.
Proof.
  induction s as [|a s IH]; intros pos cap; [done|].
  simpl. by rewrite IH.
Qed.

(** How ["\..+$"] matches at the head of a text without a line break. *)
Lemma match_at_ext pos s :
  contains newline s = false →
  Re.match_at ext_re pos s
  = match s with
    | String a (String b t) =>
        if ascii_eqb a "."
        then Some {| Re.h_end := pos + String.length s; Re.h_group := None |}
        else None
    | _ => None
    end.
Proof.
  intros Hnl. unfold Re.match_at, ext_re.
  destruct s as [|a s]; [done|].
  apply contains_cons in Hnl as [Ha Hs].
  cbn [Re.run Re.accepts]. destruct (ascii_eqb a "."); [|by destruct s].
  destruct s as [|b t]; [done|].
  pose proof Hs as Hs'. apply contains_cons in Hs' as [Hb Ht].
  rewrite Hb. cbn [negb].
  rewrite star_cap_const.
  etrans; [exact (star_to_end Re.CDot (fun _ => None) t (S (S pos)) None Ht)|].
  rewrite (all_in_dot _ Ht). cbn [String.length]. do 2 f_equal. lia.
Qed.

Lemma drop_str_all s : drop_str (String.length s) s = "".
Proof. by induction s. Qed.

Lemma drop_str_empty n : drop_str n "" = "".
Proof. by destruct n. Qed.

Lemma delete_matches_empty r fuel : ∀ pos, Re.delete_matches fuel r pos "" = "".
Proof.
  induction fuel as [|fuel IH]; intros pos; [done|]. simpl.
  destruct (Re.match_at r pos "") as [h|]; [|done].
  destruct (Nat.ltb pos (Re.h_end h)); [|done]. by rewrite drop_str_empty.
Qed.

Lemma delete_matches_ext s : ∀ fuel pos,
  contains newline s = false → String.length s < fuel →
  Re.delete_matches fuel ext_re pos s = cut_at_dot s.
Proof.
  induction s as [|a s IH]; intros fuel pos Hnl Hfuel.
  - apply delete_matches_empty.
  - destruct fuel as [|fuel]; [simpl in Hfuel; lia|].
    cbn [Re.delete_matches cut_at_dot]. rewrite (match_at_ext _ _ Hnl).
    apply contains_cons in Hnl as [Ha Hs]. simpl in Hfuel.
    destruct s as [|b t].
    + rewrite delete_matches_empty. simpl. by rewrite andb_false_r.
    + destruct (ascii_eqb a ".") eqn:E.
      * cbn [Re.h_end andb negb String.eqb].
        replace (Nat.ltb pos (pos + String.length (String a (String b t)))) with true
          by (symmetry; apply Nat.ltb_lt; simpl; lia).
        replace (pos + String.length (String a (String b t)) - pos)
          with (String.length (String a (String b t))) by lia.
        rewrite drop_str_all. apply delete_matches_empty.
      * cbn [andb]. f_equal. apply IH; [done | lia].
Qed.

Lemma cut_at_dot_first s :
  1 < count_char "." s → cut_at_dot s = before_first "." s.
Proof.
  induction s as [|a s IH]; simpl; [lia|].
  destruct (ascii_eqb a "."); simpl.
  - destruct s; simpl; [lia | done].
  - intros H. f_equal. auto.
Qed.

Lemma validate_scan_found cur_name g :
  (validate_scan cur_name g).1.1 = true ↔ declares g cur_name.
Proof.
  unfold validate_scan, declares.
  assert (Hgen : ∀ l acc,
    (fold_left (fun acc t =>
       if String.eqb (local_name (subj t)) cur_name
       then (true, Some (subj t), Some (obj t)) else acc) l acc).1.1 = true
    ↔ acc.1.1 = true ∨ ∃ t, In t l ∧ local_name (subj t) = cur_name).
  { induction l as [|t l IH]; intros acc; simpl.
    - split; [auto | intros [?|(t & [] & _)]; done].
    - rewrite IH. destruct (String.eqb (local_name (subj t)) cur_name) eqn:E.
      + apply String.eqb_eq in E. simpl. split; [|auto].
        intros _. right. exists t. auto.
      + apply String.eqb_neq in E. split.
        * intros [?|(u & Hu & Hn)]; [auto|]. right. exists u. auto.
        * intros [?|(u & [<-|Hu] & Hn)]; [auto | done |]. right. by exists u. }
  rewrite Hgen. simpl. split.
  - intros [?|(t & Ht & Hn)]; [done|].
    apply in_triples in Ht as (Ht & _ & Hp & _). apply opt_match_some in Hp.
    destruct t as [[s p] o]. unfold subj, pred in *. simpl in *. subst p. by exists s, o.
  - intros (s & o & Hin & Hn). right. exists (s, RDF_type, o). split; [|done].
    apply in_triples. repeat split; done.
Qed.

Lemma validate_file_declares w cur_path tmp_dir g :
  load_graph_from_format w cur_path tmp_dir = Ok g →
  (declares (p_triples g) (expected_name cur_path) →
     validate_file w cur_path tmp_dir = Ok (Some g))
  ∧ (¬ declares (p_triples g) (expected_name cur_path) →
     validate_file w cur_path tmp_dir = Ok None).
Proof.
  intros Hload. unfold validate_file. rewrite Hload. cbn [mbind result_bind].
  pose proof (validate_scan_found (expected_name cur_path) (p_triples g)) as H.
  destruct (validate_scan _ _) as [[found r] ty]. simpl in H.
  destruct found; split; intros Hd; try done.
  - destruct Hd. by apply H.
  - apply H in Hd. discriminate Hd.
Qed.

(** C10, as the code has it.  For a file whose base name has more than
    one dot and no line break, the name the validator expects is the part
    before the first dot.  The file validates exactly when its graph has an
    [rdf:type] statement about a resource of that local name, and what
    validation returns is then the whole loaded graph. *)
Theorem validate_file_first_dot w cur_path tmp_dir g :
  1 < count_char "." (Path.basename cur_path) →
  contains newline (Path.basename cur_path) = false →
  expected_name cur_path = before_first "." (Path.basename cur_path)
  ∧ (load_graph_from_format w cur_path tmp_dir = Ok g →
     (declares (p_triples g) (before_first "." (Path.basename cur_path)) →
        validate_file w cur_path tmp_dir = Ok (Some g))
     ∧ (¬ declares (p_triples g) (before_first "." (Path.basename cur_path)) →
        validate_file w cur_path tmp_dir = Ok None)).
Proof.
  intros Hdots Hnl.
  assert (Hname : expected_name cur_path = before_first "." (Path.basename cur_path)).
  { unfold expected_name, Re.sub_empty.
    rewrite delete_matches_ext by (done || lia). by apply cut_at_dot_first. }
  split; [done|]. rewrite <- Hname. apply validate_file_declares.
Qed.

Lemma validate_file_first_dot_witness :
  1 < count_char "." (Path.basename "d/map.v2.ttl")
  ∧ contains newline (Path.basename "d/map.v2.ttl") = false
  ∧ expected_name "d/map.v2.ttl" = before_first "." (Path.basename "d/map.v2.ttl")
  ∧ (load_graph_from_format Ex5.versioned_world "d/map.v2.ttl" None = Ok Ex5.map_graph →
     (declares (p_triples Ex5.map_graph) (before_first "." (Path.basename "d/map.v2.ttl")) →
        validate_file Ex5.versioned_world "d/map.v2.ttl" None = Ok (Some Ex5.map_graph))
     ∧ (¬ declares (p_triples Ex5.map_graph)
            (before_first "." (Path.basename "d/map.v2.ttl")) →
        validate_file Ex5.versioned_world "d/map.v2.ttl" None = Ok None)).
Proof.
  split; [vm_compute; lia|]. split; [reflexivity|].
  apply (validate_file_first_dot Ex5.versioned_world "d/map.v2.ttl" None Ex5.map_graph).
  - vm_compute; lia.
  - reflexivity.
Defined.

(** C10, as the specification states it, fails for a base name with a line break:
    ["."] does not match a line break, so the deletion starts at the first
    dot from which the rest of the name is on one line.  The file of
    [Ex4.broken_world] has two dots in its name; the name expected of its
    resource is not the part before the first dot, and the file validates
    without declaring a resource of that name. *)
Lemma validate_file_line_break :
  1 < count_char "." (Path.basename ("d/" +:+ Ex4.broken_name))
  ∧ expected_name ("d/" +:+ Ex4.broken_name) = "a.b" +:+ Ex4.nl +:+ "c"
  ∧ before_first "." (Path.basename ("d/" +:+ Ex4.broken_name)) = "a"
  ∧ (∃ g, validate_file Ex4.broken_world ("d/" +:+ Ex4.broken_name) None = Ok (Some g)
          ∧ ¬ declares (p_triples g)
                (before_first "." (Path.basename ("d/" +:+ Ex4.broken_name)))).
Proof.
  split; [vm_compute; lia|]. split; [reflexivity|]. split; [reflexivity|].
  eexists. split; [vm_compute; reflexivity|].
  intros (s & o & [H|[]] & Hn). injection H as <- <-.
  vm_compute in Hn. discriminate Hn.
Qed.

(** ** Merging the same files twice *)

Lemma extends_refl st : extends st st.
Proof. unfold extends. repeat split; (apply incl_refl || set_solver). Qed.

Lemma extends_trans a b c : extends a b → extends b c → extends a c.
Proof.
  intros (H1 & H2 & H3 & H4) (K1 & K2 & K3 & K4).
  repeat split; [by eapply incl_tran | set_solver..].
Qed.




(** *** Where loaded graphs come from *)

Lemma load_graph_from_origin w path content fs : ∀ g tr,
  load_graph_from w path content fs = (Ok g, tr) → ∃ f, w_load w f path content = inl g.
Proof.
  induction fs as [|f fs IH]; intros g tr; simpl; [done|].
  destruct (w_load w f path content) as [g'|why] eqn:E.
  - intros [= <- _]. by exists f.
  - destruct (load_graph_from w path content fs) as [r tr'].
    intros [= -> _]. by eapply IH.
Qed.

Lemma load_graph_from_format_origin w path tmp_dir g :
  load_graph_from_format w path tmp_dir = Ok g →
  ∃ f p c, w_load w f p c = inl g.
Proof.
  unfold load_graph_from_format, load_graph_from_format_trace, load_graph.
  destruct (w_file w path) as [content|]; [|done].
  destruct (load_graph_from w path content formats) as [[g1|e] tr] eqn:E1.
  - intros [= <-]. destruct (load_graph_from_origin _ _ _ _ _ _ E1) as [f Hf]. eauto.
  - destruct tmp_dir as [d|]; [|by simpl]. destruct (can_copy w d); [|by simpl].
    destruct (load_graph_from w (d +:+ _) content formats) as [[g2|e2] tr2] eqn:E2;
      [|by simpl].
    intros [= <-]. destruct (load_graph_from_origin _ _ _ _ _ _ E2) as [f Hf]. eauto.
Qed.

Lemma validate_file_loaded w path tmp_dir g :
  validate_file w path tmp_dir = Ok (Some g) →
  load_graph_from_format w path tmp_dir = Ok g.
Proof.
  unfold validate_file. destruct (load_graph_from_format w path tmp_dir) as [g'|e]; [|done].
  cbn [mbind result_bind]. destruct (validate_scan _ _) as [[[] ?] ?]; [|done].
  by intros [= ->].
Qed.

Lemma graph_true_some cur_graph g : graph_true cur_graph = Some g → cur_graph = Some g.
Proof.
  destruct cur_graph as [g'|]; [|done]. simpl.
  destruct (p_triples g'); [done|]. by intros [= ->].
Qed.


(** *** What the resolver adds *)

Lemma in_predicate_objects p o g s :
  In (p, o) (predicate_objects g (Some s)) → In (s, p, o) g.
Proof.
  unfold predicate_objects. rewrite in_map_iff. intros ([[s' p'] o'] & Heq & Ht).
  apply in_triples in Ht as (Ht & Hs & _). apply opt_match_some in Hs.
  unfold subj, pred, obj in *. simpl in *. by injection Heq as -> ->; subst.
Qed.




(** *** Loops that only add *)



(** *** The copy loop *)

Lemma incl_add t fm : incl fm (add t fm).
Proof. intros u Hu. apply in_add. by right. Qed.

Lemma elem_of_add_left (s : term) (X : gset term) : s ∈ {[s]} ∪ X.
Proof. apply elem_of_union. left. by apply elem_of_singleton. Qed.

Lemma copy_statement_spec st t :
  extends st (copy_statement st t)
  ∧ (∀ u, In u (final_mapping (copy_statement st t)) → In u (final_mapping st) ∨ u = t)
  ∧ (subj t ∈ translationtable_set st ∪ database_set st
     ∨ In t (final_mapping (copy_statement st t)))
  ∧ (obj t = ClassMap → subj t ∈ classmap_set (copy_statement st t)).
Proof.
  destruct t as [[s p] o]. unfold copy_statement, extends, subj, obj. simpl.
  assert (Hcm : ∀ st1, term_eqb o ClassMap = false →
                       o = ClassMap → s ∈ classmap_set st1).
  { intros st1 Eo ->. by rewrite (proj2 (term_eqb_true _ _) eq_refl) in Eo. }
  assert (Hadd : ∀ u, In u (add (s, p, o) (final_mapping st)) →
                       In u (final_mapping st) ∨ u = (s, p, o)).
  { intros u Hu. apply in_add in Hu. tauto. }
  assert (Hin : In (s, p, o) (add (s, p, o) (final_mapping st))).
  { apply in_add. by left. }
  destruct (bool_decide (s ∉ _)) eqn:E; destruct (term_eqb o ClassMap) eqn:Eo; simpl.
  all: try (apply bool_decide_eq_false in E; apply dec_stable in E).
  all: split_and!;
    first [ apply incl_refl | apply incl_add | apply union_subseteq_r
          | exact Hadd | by apply Hcm | by left | by right
          | intros _; apply elem_of_add_left | done ].
Qed.

Lemma copy_statements_spec g : ∀ st,
  extends st (copy_statements g st)
  ∧ (∀ u, In u (final_mapping (copy_statements g st)) →
          In u (final_mapping st) ∨ In u g)
  ∧ (∀ t, In t g →
       (subj t ∈ translationtable_set (copy_statements g st)
                 ∪ database_set (copy_statements g st)
        ∨ In t (final_mapping (copy_statements g st)))
       ∧ (obj t = ClassMap → subj t ∈ classmap_set (copy_statements g st))).
Proof.
  unfold copy_statements.
  induction g as [|t g IH]; intros st; simpl.
  - split; [apply extends_refl|]. split; [auto | done].
  - destruct (copy_statement_spec st t) as (He & Hn & Hc & Hm).
    destruct (IH (copy_statement st t)) as (He' & Hn' & Hc').
    pose proof He' as (K1 & K2 & K3 & K4).
    split; [by eapply extends_trans|]. split.
    + intros u Hu. apply Hn' in Hu as [Hu|Hu]; [|by auto].
      apply Hn in Hu as [Hu| ->]; auto.
    + intros u [<-|Hu]; [|by apply Hc'].
      split.
      * destruct Hc as [Hc|Hc]; [left | right; by apply K1].
        rewrite (proj1 (copy_statement_sets st t)) in K3.
        rewrite (proj2 (copy_statement_sets st t)) in K4.
        apply elem_of_union in Hc as [Hc|Hc]; apply elem_of_union;
          [left; by apply K3 | right; by apply K4].
      * intros Ho. by apply K2, Hm.
Qed.

(** *** The three reference loops *)




(** *** One merge *)




(** *** A merge that changes nothing *)







(** ** What the two cleanup passes do guarantee *)

Lemma in_remove_subject t g s :
  In t (remove g (Some s) None None) ↔ In t g ∧ subj t ≠ s.
Proof.
  unfold remove. rewrite filter_In. cbn [opt_match]. rewrite !andb_true_r, negb_true_iff.
  unfold term_eqb. rewrite bool_decide_eq_false. split; intros [H1 H2]; split; congruence.
Qed.

Lemma in_remove_statement t g u :
  In t (remove g (Some (subj u)) (Some (pred u)) (Some (obj u))) ↔ In t g ∧ t ≠ u.
Proof.
  unfold remove. rewrite filter_In.
  split; intros [H1 H2]; (split; [done|]).
  - intros ->. rewrite !(proj2 (opt_match_some _ _) eq_refl) in H2. discriminate H2.
  - apply negb_true_iff.
    destruct (opt_match (Some (subj u)) (subj t)) eqn:E1; [|done].
    destruct (opt_match (Some (pred u)) (pred t)) eqn:E2; [|done].
    destruct (opt_match (Some (obj u)) (obj t)) eqn:E3; [|done].
    apply opt_match_some in E1, E2, E3. destruct H2.
    destruct t as [[s p] o], u as [[s' p'] o']. unfold subj, pred, obj in *.
    simpl in *. congruence.
Qed.

Lemma not_in_cases t (g : graph) : In t g ∨ ¬ In t g.
Proof.
  destruct (has_triple g t) eqn:E; [left; by apply has_triple_In|].
  right. intros H. apply has_triple_In in H. congruence.
Qed.

Lemma objects_incl g g' s p : incl g g' → incl (objects g s p) (objects g' s p).
Proof.
  intros H o Ho. apply in_objects in Ho as (t & Ht & <-). apply in_objects.
  exists t. split; [|done]. apply in_triples in Ht as (Ht & ?). apply in_triples.
  split; [by apply H | done].
Qed.

Lemma subjects_incl g g' p o : incl g g' → incl (subjects g p o) (subjects g' p o).
Proof.
  intros H s. unfold subjects. rewrite !in_map_iff. intros (t & Hs & Ht).
  exists t. split; [done|]. apply in_triples in Ht as (Ht & ?). apply in_triples.
  split; [by apply H | done].
Qed.

Lemma in_subjects_all t g : In t g → In (subj t) (subjects g None None).
Proof.
  intros H. unfold subjects. apply in_map. by apply in_triples.
Qed.

Lemma orphan_step_incl g s : incl (orphan_step g s) g.
Proof.
  intros t. unfold orphan_step. destruct (_ && _); [apply in_remove | done].
Qed.

(** A statement that leaves during the orphan pass has a blank-node
    subject, and every statement of that subject leaves with it. *)
Lemma orphan_steps_removed l : ∀ g t,
  In t g → ¬ In t (fold_left orphan_step l g) →
  is_bnode (subj t) = true
  ∧ ∀ u, In u (fold_left orphan_step l g) → subj u ≠ subj t.
Proof.
  induction l as [|s l IH]; intros g t Hin Hout; simpl in *; [done|].
  destruct (not_in_cases t (orphan_step g s)) as [Hkeep|Hgone]; [by apply IH|].
  unfold orphan_step in *.
  destruct (is_bnode s && negb (term_in s (objects g None None))) eqn:E; [|done].
  apply andb_true_iff in E as [Hb _].
  assert (Hs : subj t = s).
  { destruct (decide (subj t = s)) as [|Hne]; [done|].
    destruct Hgone. by apply in_remove_subject. }
  subst s. split; [done|].
  intros u Hu. apply orphan_steps_incl in Hu. by apply in_remove_subject in Hu as [_ ?].
Qed.

(** A blank node that keeps a statement through the orphan pass was the
    object of a statement when the pass began. *)
Lemma orphan_steps_kept g0 l : ∀ g t,
  incl g g0 → In t (fold_left orphan_step l g) → In (subj t) l →
  is_bnode (subj t) = true → In (subj t) (objects g0 None None).
Proof.
  induction l as [|s l IH]; intros g t Hg Hin Hl Hb; simpl in *; [done|].
  assert (Hg1 : incl (orphan_step g s) g0).
  { intros u Hu. by apply Hg, (orphan_step_incl g s). }
  destruct (decide (s = subj t)) as [->|Hne].
  - destruct (term_in (subj t) (objects g None None)) eqn:E.
    + apply term_in_In in E. by apply (objects_incl g g0).
    + apply orphan_steps_incl in Hin. unfold orphan_step in Hin.
      rewrite Hb, E in Hin. simpl in Hin.
      by apply in_remove_subject in Hin as [_ ?].
  - destruct Hl as [?|Hl]; [done|]. by apply (IH (orphan_step g s)).
Qed.

(** X1.  The orphan pass keeps only blank nodes that were referred to when it
    began; and on a final mapping in which no statement links one blank
    node to another, it does establish the orphan invariant. *)
Theorem clear_orphan_blank_nodes_sound g :
  (∀ t, In t (clear_orphan_blank_nodes_graph g) → is_bnode (subj t) = true →
        In (subj t) (objects g None None))
  ∧ (chain_free g → orphan_free (clear_orphan_blank_nodes_graph g)).
Proof.
  assert (Hkept : ∀ t, In t (clear_orphan_blank_nodes_graph g) →
                       is_bnode (subj t) = true → In (subj t) (objects g None None)).
  { intros t Ht Hb. apply (orphan_steps_kept g _ g t (incl_refl _) Ht); [|done].
    by apply in_subjects_all, clear_orphan_blank_nodes_incl. }
  split; [exact Hkept|].
  intros Hfree t Ht Hb.
  pose proof (Hkept t Ht Hb) as Hobj.
  apply in_objects in Hobj as (u & Hu & Ho).
  apply in_triples in Hu as (Hu & _).
  apply in_objects. exists u. split; [|done]. apply in_triples.
  split; [|done].
  destruct (not_in_cases u (clear_orphan_blank_nodes_graph g)) as [|Hgone]; [done|].
  destruct (orphan_steps_removed _ _ _ Hu Hgone) as [Hbu Hnone].
  assert (Heq : obj u = subj u). { apply Hfree; [done | done | by rewrite Ho]. }
  destruct (Hnone t Ht). congruence.
Qed.

(** *** The dangling-bridge pass *)

Lemma in_remove_each l : ∀ g t,
  In t (fold_left (fun g' u => remove g' (Some (subj u)) (Some (pred u)) (Some (obj u))) l g)
  ↔ In t g ∧ ¬ In t l.
Proof.
  induction l as [|u l IH]; intros g t; simpl; [tauto|].
  rewrite IH, in_remove_statement. split.
  - intros [[H1 H2] H3]. split; [done|]. intros [->|?]; done.
  - intros [H1 H2]. split; [split; [done|]|]; intros ?; apply H2; auto.
Qed.

Lemma in_bridge_step t g so :
  In t (bridge_step g so)
  ↔ In t g ∧ (In so.2 (subjects g (Some RDF_type) None) ∨ subj t ≠ so.1).
Proof.
  unfold bridge_step, clear_d2rq_entity.
  destruct (term_in so.2 (subjects g (Some RDF_type) None)) eqn:E; simpl.
  - apply term_in_In in E. tauto.
  - assert (Hno : ¬ In so.2 (subjects g (Some RDF_type) None)).
    { intros H. apply term_in_In in H. congruence. }
    rewrite in_remove_each, in_triples. split.
    + intros [H1 H2]. split; [done|]. right. intros Hs. apply H2.
      split_and!; try done. by apply opt_match_some.
    + intros [H1 [H2|H2]]; [done|]. split; [done|].
      intros (_ & Hs & _). by apply opt_match_some in Hs.
Qed.

Lemma bridge_steps_incl l : ∀ g, incl (fold_left bridge_step l g) g.
Proof.
  induction l as [|so l IH]; intros g t Ht; simpl in *; [done|].
  apply IH in Ht. by apply in_bridge_step in Ht as [? _].
Qed.

Lemma clear_references_steps property g :
  clear_references property g
  = fold_left bridge_step (subject_objects g (Some property)) g.
Proof.
  unfold clear_references. generalize (subject_objects g (Some property)) as l.
  intros l. revert g. induction l as [|[s o] l IH]; intros g; simpl; [done|]. apply IH.
Qed.

(** A statement that leaves during one loop belongs to an entity the
    loop went through, and every statement of that entity leaves with it. *)
Lemma bridge_steps_removed l : ∀ g t,
  In t g → ¬ In t (fold_left bridge_step l g) →
  (∃ o, In (subj t, o) l) ∧ ∀ u, In u (fold_left bridge_step l g) → subj u ≠ subj t.
Proof.
  induction l as [|[e o] l IH]; intros g t Hin Hout; simpl in *; [done|].
  destruct (not_in_cases t (bridge_step g (e, o))) as [Hkeep|Hgone].
  - destruct (IH _ _ Hkeep Hout) as [(o' & Ho') Hnone]. split; [|done].
    exists o'. by right.
  - assert (Hs : subj t = e ∧ ¬ In o (subjects g (Some RDF_type) None)).
    { destruct (decide (subj t = e)) as [He|He].
      - split; [done|]. intros Hty. apply Hgone, in_bridge_step. by split; [|left].
      - destruct Hgone. apply in_bridge_step. by split; [|right]. }
    destruct Hs as [<- Hno]. split; [exists o; by left|].
    intros u Hu. apply bridge_steps_incl, in_bridge_step in Hu as [_ [?|?]]; done.
Qed.

(** A reference that stays through its loop pointed, when the loop
    reached it, to a typed resource. *)
Lemma bridge_steps_kept g0 l : ∀ g t,
  incl g g0 → In t (fold_left bridge_step l g) → In (subj t, obj t) l →
  In (obj t) (subjects g0 (Some RDF_type) None).
Proof.
  induction l as [|[e o] l IH]; intros g t Hg Hin Hl; simpl in *; [done|].
  assert (Hg1 : incl (bridge_step g (e, o)) g0).
  { intros u Hu. apply Hg. by apply in_bridge_step in Hu as [? _]. }
  destruct (decide ((e, o) = (subj t, obj t))) as [[= -> ->]|Hne].
  - apply bridge_steps_incl, in_bridge_step in Hin as [_ [Hty|Hs]]; [|done].
    by apply (subjects_incl g g0).
  - destruct Hl as [?|Hl]; [done|]. by apply (IH (bridge_step g (e, o))).
Qed.

Lemma in_subject_objects t g :
  In t g → In (subj t, obj t) (subject_objects g (Some (pred t))).
Proof.
  intros H. unfold subject_objects. apply (in_map (fun t => (subj t, obj t))).
  apply in_triples. split_and!; try done. by apply opt_match_some.
Qed.

Lemma subject_objects_in s o g p :
  In (s, o) (subject_objects g (Some p)) → ∃ t, In t g ∧ subj t = s ∧ pred t = p.
Proof.
  unfold subject_objects. rewrite in_map_iff. intros (t & [= <- <-] & Ht).
  apply in_triples in Ht as (Ht & _ & Hp & _). apply opt_match_some in Hp.
  by exists t.
Qed.

Lemma clear_references_incl property g : incl (clear_references property g) g.
Proof. rewrite clear_references_steps. apply bridge_steps_incl. Qed.

Lemma clear_references_kept property g t :
  In t (clear_references property g) → pred t = property →
  In (obj t) (subjects g (Some RDF_type) None).
Proof.
  rewrite clear_references_steps. intros Ht <-.
  apply (bridge_steps_kept g (subject_objects g (Some (pred t))) g t (incl_refl _) Ht).
  by apply in_subject_objects, (bridge_steps_incl (subject_objects g (Some (pred t))) g).
Qed.

Lemma clear_references_removed property g t :
  In t g → ¬ In t (clear_references property g) →
  (∃ u, In u g ∧ subj u = subj t ∧ pred u = property)
  ∧ ∀ u, In u (clear_references property g) → subj u ≠ subj t.
Proof.
  rewrite clear_references_steps. intros Hin Hout.
  destruct (bridge_steps_removed _ _ _ Hin Hout) as [(o & Ho) Hnone].
  split; [|done]. by apply subject_objects_in in Ho.
Qed.

(** X2.  Every reference the dangling-bridge pass leaves pointed to a typed
    resource when its loop reached it, hence when the pass began; and on a
    final mapping in which no target of a reference makes a reference
    itself, the pass does establish the dangling-bridge invariant. *)
Theorem clear_orphan_property_bridges_sound g :
  (∀ t, In t (clear_orphan_property_bridges g) → is_reference_property (pred t) →
        In (obj t) (subjects g (Some RDF_type) None))
  ∧ (targets_plain g → bridges_resolved (clear_orphan_property_bridges g)).
Proof.
  unfold clear_orphan_property_bridges.
  set (g1 := clear_references refersToClassMap g).
  set (g2 := clear_references translateWith g1).
  set (g3 := clear_references dataStorage g2).
  assert (H1 : incl g1 g) by apply clear_references_incl.
  assert (H2 : incl g2 g1) by apply clear_references_incl.
  assert (H3 : incl g3 g2) by apply clear_references_incl.
  assert (Hkept : ∀ t, In t g3 → is_reference_property (pred t) →
                       In (obj t) (subjects g (Some RDF_type) None)).
  { intros t Ht [Hp|[Hp|Hp]].
    - apply (clear_references_kept refersToClassMap g); [|done]. by apply H2, H3.
    - apply (subjects_incl g1 g); [done|].
      apply (clear_references_kept translateWith g1); [|done]. by apply H3.
    - apply (subjects_incl g2 g); [by eapply incl_tran|].
      by apply (clear_references_kept dataStorage g2). }
  split; [exact Hkept|].
  intros Hplain t Ht Hp.
  pose proof (Hkept t Ht Hp) as Hty.
  assert (Htg : In t g) by (by apply H1, H2, H3).
  unfold subjects in Hty |- *. apply in_map_iff in Hty as (v & Hv & Hvin).
  apply in_map_iff. exists v. split; [done|].
  apply in_triples in Hvin as (Hvg & Hm). apply in_triples. split; [|done].
  assert (Hstay : ∀ property ga, incl ga g → is_reference_property property →
                    In v ga → In v (clear_references property ga)).
  { intros property ga Hga Hprop Hin.
    destruct (not_in_cases v (clear_references property ga)) as [|Hgone]; [done|].
    destruct (clear_references_removed _ _ _ Hin Hgone) as [(u & Hu & Hsu & Hpu) _].
    destruct (Hplain t u Htg (Hga u Hu) Hp); [by rewrite Hpu | congruence]. }
  apply Hstay; [by eapply incl_tran | by right; right |].
  apply Hstay; [done | by right; left |].
  apply Hstay; [apply incl_refl | by left | done].
Qed.

(** ** More on the two cleanup passes *)

(** X3.  The orphan pass takes away nothing but statements whose subject
    is a blank node, and it takes a subject away whole: when a statement
    leaves, no statement of the same subject stays. *)
Theorem clear_orphan_blank_nodes_removes_whole_blank_subjects g t :
  In t g → ¬ In t (clear_orphan_blank_nodes_graph g) →
  is_bnode (subj t) = true
  ∧ ∀ u, In u (clear_orphan_blank_nodes_graph g) → subj u ≠ subj t.
Proof. apply orphan_steps_removed. Qed.

Lemma clear_orphan_blank_nodes_removes_whole_blank_subjects_witness :
  In (Ex.b1, Ex.ex "p", Ex.b2) Ex.chain_mapping
  ∧ ¬ In (Ex.b1, Ex.ex "p", Ex.b2) (clear_orphan_blank_nodes_graph Ex.chain_mapping)
  ∧ is_bnode (subj (Ex.b1, Ex.ex "p", Ex.b2)) = true
  ∧ ∀ u, In u (clear_orphan_blank_nodes_graph Ex.chain_mapping) →
         subj u ≠ subj (Ex.b1, Ex.ex "p", Ex.b2).
Proof.
  assert (H1 : In (Ex.b1, Ex.ex "p", Ex.b2) Ex.chain_mapping) by (simpl; auto).
  assert (H2 : ¬ In (Ex.b1, Ex.ex "p", Ex.b2)
                    (clear_orphan_blank_nodes_graph Ex.chain_mapping)).
  { simpl. intros [H|[]]. discriminate H. }
  split; [exact H1|]. split; [exact H2|].
  exact (clear_orphan_blank_nodes_removes_whole_blank_subjects _ _ H1 H2).
Defined.

Lemma orphan_steps_root s l : ∀ g,
  is_bnode s = true → ¬ In s (objects g None None) → In s l →
  ∀ u, In u (fold_left orphan_step l g) → subj u ≠ s.
Proof.
  induction l as [|a l IH]; intros g Hb Hno Hl u Hu; simpl in *; [done|].
  destruct (decide (a = s)) as [->|Hne].
  - apply orphan_steps_incl in Hu. unfold orphan_step in Hu.
    assert (E : term_in s (objects g None None) = false).
    { destruct (term_in s (objects g None None)) eqn:E; [|done].
      by apply term_in_In in E. }
    rewrite Hb, E in Hu. simpl in Hu. by apply in_remove_subject in Hu as [_ ?].
  - destruct Hl as [?|Hl]; [done|].
    apply (IH (orphan_step g a)); try done.
    intros Ho. apply Hno. by apply (objects_incl _ g _ _ (orphan_step_incl g a)).
Qed.

(** X4.  The orphan pass removes every statement of a blank node that no
    statement of the final mapping refers to when the pass begins. *)
Theorem clear_orphan_blank_nodes_removes_roots g t :
  is_bnode (subj t) = true → ¬ In (subj t) (objects g None None) →
  ¬ In t (clear_orphan_blank_nodes_graph g).
Proof.
  intros Hb Hno Hin.
  apply (orphan_steps_root (subj t) _ g Hb Hno) in Hin as Hne; [done|].
  by apply in_subjects_all, clear_orphan_blank_nodes_incl.
Qed.

Lemma clear_orphan_blank_nodes_removes_roots_witness :
  is_bnode (subj (Ex.b1, Ex.ex "p", Ex.b2)) = true
  ∧ ¬ In (subj (Ex.b1, Ex.ex "p", Ex.b2)) (objects Ex.chain_mapping None None)
  ∧ ¬ In (Ex.b1, Ex.ex "p", Ex.b2) (clear_orphan_blank_nodes_graph Ex.chain_mapping).
Proof.
  assert (H : ¬ In (subj (Ex.b1, Ex.ex "p", Ex.b2)) (objects Ex.chain_mapping None None)).
  { simpl. intros [H|[H|[]]]; discriminate H. }
  split; [reflexivity|]. split; [exact H|].
  exact (clear_orphan_blank_nodes_removes_roots Ex.chain_mapping
           (Ex.b1, Ex.ex "p", Ex.b2) eq_refl H).
Defined.

(** *** The dangling-bridge pass *)

Lemma clear_orphan_property_bridges_incl g : incl (clear_orphan_property_bridges g) g.
Proof.
  unfold clear_orphan_property_bridges. intros t Ht.
  by apply clear_references_incl, clear_references_incl, clear_references_incl in Ht.
Qed.

(** X5.  The dangling-bridge pass takes away nothing but statements of an
    entity that makes a reference (has a statement with one of the three
    reference properties), and it takes an entity away whole. *)
Theorem clear_orphan_property_bridges_removes_whole_referrers g t :
  In t g → ¬ In t (clear_orphan_property_bridges g) →
  (∃ u, In u g ∧ subj u = subj t ∧ is_reference_property (pred u))
  ∧ ∀ v, In v (clear_orphan_property_bridges g) → subj v ≠ subj t.
Proof.
  unfold clear_orphan_property_bridges.
  set (g1 := clear_references refersToClassMap g).
  set (g2 := clear_references translateWith g1).
  set (g3 := clear_references dataStorage g2).
  assert (H1 : incl g1 g) by apply clear_references_incl.
  assert (H2 : incl g2 g1) by apply clear_references_incl.
  assert (H3 : incl g3 g2) by apply clear_references_incl.
  intros Hin Hout.
  destruct (not_in_cases t g1) as [Hin1|Hout1].
  - destruct (not_in_cases t g2) as [Hin2|Hout2].
    + destruct (clear_references_removed _ _ _ Hin2 Hout) as [(u & Hu & Hs & Hp) Hnone].
      split; [|done]. exists u. split; [by apply H1, H2|]. split; [done|].
      right; right; done.
    + destruct (clear_references_removed _ _ _ Hin1 Hout2) as [(u & Hu & Hs & Hp) Hnone].
      split; [|intros v Hv; by apply Hnone, H3].
      exists u. split; [by apply H1|]. split; [done|]. right; left; done.
  - destruct (clear_references_removed _ _ _ Hin Hout1) as [(u & Hu & Hs & Hp) Hnone].
    split; [|intros v Hv; by apply Hnone, H2, H3].
    exists u. split; [done|]. split; [done|]. by left.
Qed.

Lemma clear_orphan_property_bridges_removes_whole_referrers_witness :
  In (Ex.ex "CM", RDF_type, ClassMap) Ex.dangling_mapping
  ∧ ¬ In (Ex.ex "CM", RDF_type, ClassMap)
        (clear_orphan_property_bridges Ex.dangling_mapping)
  ∧ (∃ u, In u Ex.dangling_mapping ∧ subj u = subj (Ex.ex "CM", RDF_type, ClassMap)
          ∧ is_reference_property (pred u))
  ∧ ∀ v, In v (clear_orphan_property_bridges Ex.dangling_mapping) →
         subj v ≠ subj (Ex.ex "CM", RDF_type, ClassMap).
Proof.
  assert (H1 : In (Ex.ex "CM", RDF_type, ClassMap) Ex.dangling_mapping)
    by (simpl; auto).
  assert (H2 : ¬ In (Ex.ex "CM", RDF_type, ClassMap)
                    (clear_orphan_property_bridges Ex.dangling_mapping)).
  { simpl. intros [H|[H|[]]]; discriminate H. }
  split; [exact H1|]. split; [exact H2|].
  exact (clear_orphan_property_bridges_removes_whole_referrers _ _ H1 H2).
Defined.

Lemma bridge_steps_untyped g0 s o l : ∀ g,
  incl g g0 → ¬ In o (subjects g0 (Some RDF_type) None) → In (s, o) l →
  ∀ v, In v (fold_left bridge_step l g) → subj v ≠ s.
Proof.
  induction l as [|[e r] l IH]; intros g Hg Hno Hl v Hv; simpl in *; [done|].
  assert (Hg1 : incl (bridge_step g (e, r)) g0).
  { intros u Hu. apply Hg. by apply in_bridge_step in Hu as [? _]. }
  destruct (decide ((e, r) = (s, o))) as [[= -> ->]|Hne].
  - apply bridge_steps_incl, in_bridge_step in Hv as [_ [Hty|Hs]]; [|done].
    destruct Hno. by apply (subjects_incl g g0).
  - destruct Hl as [?|Hl]; [done|]. by apply (IH (bridge_step g (e, r))).
Qed.

Lemma clear_references_untyped property g0 g t :
  incl g g0 → pred t = property →
  ¬ In (obj t) (subjects g0 (Some RDF_type) None) →
  (In t g ∨ ∀ v, In v g → subj v ≠ subj t) →
  ∀ v, In v (clear_references property g) → subj v ≠ subj t.
Proof.
  intros Hg Hp Hno [Hin|Hnone].
  - rewrite clear_references_steps. subst property.
    apply (bridge_steps_untyped g0 (subj t) (obj t)); try done.
    by apply in_subject_objects.
  - intros v Hv. by apply Hnone, (clear_references_incl property).
Qed.

(** X6.  An entity that refers, with one of the three reference
    properties, to a resource without any [rdf:type] statement when the
    dangling-bridge pass begins has no statement left after the pass. *)
Theorem clear_orphan_property_bridges_removes_dangling g t :
  In t g → is_reference_property (pred t) →
  ¬ In (obj t) (subjects g (Some RDF_type) None) →
  ∀ v, In v (clear_orphan_property_bridges g) → subj v ≠ subj t.
Proof.
  unfold clear_orphan_property_bridges.
  set (g1 := clear_references refersToClassMap g).
  set (g2 := clear_references translateWith g1).
  assert (H1 : incl g1 g) by apply clear_references_incl.
  assert (H2 : incl g2 g1) by apply clear_references_incl.
  intros Hin Hp Hno.
  assert (Hstep : ∀ property ga,
            (In t ga ∨ ∀ v, In v ga → subj v ≠ subj t) →
            In t (clear_references property ga)
            ∨ ∀ v, In v (clear_references property ga) → subj v ≠ subj t).
  { intros property ga [Hin'|Hnone].
    - destruct (not_in_cases t (clear_references property ga)) as [|Hout]; [by left|].
      right. by apply (clear_references_removed _ _ _ Hin' Hout).
    - right. intros v Hv. by apply Hnone, (clear_references_incl property). }
  pose proof (Hstep refersToClassMap g (or_introl Hin)) as D1. fold g1 in D1.
  pose proof (Hstep translateWith g1 D1) as D2. fold g2 in D2.
  destruct Hp as [Hp|[Hp|Hp]]; intros v Hv.
  - apply (clear_references_untyped refersToClassMap g g t (incl_refl _) Hp Hno
             (or_introl Hin)).
    by apply H2, (clear_references_incl dataStorage).
  - apply (clear_references_untyped translateWith g g1 t H1 Hp Hno D1).
    by apply (clear_references_incl dataStorage).
  - apply (clear_references_untyped dataStorage g g2 t (incl_tran H2 H1) Hp Hno D2).
    done.
Qed.

Lemma clear_orphan_property_bridges_removes_dangling_witness :
  In (Ex.ex "CM", dataStorage, Ex.ex "DB") Ex.dangling_mapping
  ∧ is_reference_property (pred (Ex.ex "CM", dataStorage, Ex.ex "DB"))
  ∧ ¬ In (obj (Ex.ex "CM", dataStorage, Ex.ex "DB"))
        (subjects Ex.dangling_mapping (Some RDF_type) None)
  ∧ ∀ v, In v (clear_orphan_property_bridges Ex.dangling_mapping) →
         subj v ≠ subj (Ex.ex "CM", dataStorage, Ex.ex "DB").
Proof.
  assert (H1 : In (Ex.ex "CM", dataStorage, Ex.ex "DB") Ex.dangling_mapping)
    by (simpl; auto).
  assert (H2 : is_reference_property (pred (Ex.ex "CM", dataStorage, Ex.ex "DB")))
    by (right; right; reflexivity).
  assert (H3 : ¬ In (obj (Ex.ex "CM", dataStorage, Ex.ex "DB"))
                    (subjects Ex.dangling_mapping (Some RDF_type) None)).
  { simpl. intros [H|[H|[]]]; discriminate H. }
  split; [exact H1|]. split; [exact H2|]. split; [exact H3|].
  exact (clear_orphan_property_bridges_removes_dangling _ _ H1 H2 H3).
Defined.

(** *** The reporter *)

Lemma bridge_steps_typed l : ∀ g,
  (∀ s o, In (s, o) l → In o (subjects g (Some RDF_type) None)) →
  fold_left bridge_step l g = g.
Proof.
  induction l as [|[s o] l IH]; intros g H; simpl; [done|].
  assert (E : bridge_step g (s, o) = g).
  { unfold bridge_step, clear_d2rq_entity. simpl.
    rewrite (proj2 (term_in_In _ _)); [done|]. apply (H s o). by left. }
  rewrite E. apply IH. intros s' o' Hin. apply (H s' o'). by right.
Qed.

Lemma log_references_nil fm property ty :
  log_references fm property ty = [] ↔
  ∀ s o, In (s, property, o) fm → In (o, RDF_type, ty) fm.
Proof.
  unfold log_references. split.
  - intros Hnil s o Hin.
    destruct (has_triple fm (o, RDF_type, ty)) eqn:E; [by apply has_triple_In|].
    assert (Hw : In (local_name ty, local_name o)
                   (flat_map (fun cur_reference =>
                      if negb (has_triple fm (cur_reference, RDF_type, ty))
                      then [(local_name ty, local_name cur_reference)] else [])
                      (objects fm None (Some property)))).
    { apply in_flat_map. exists o. split.
      - apply in_objects. exists (s, property, o). split; [|done].
        apply in_triples. split_and!; try done. by apply opt_match_some.
      - rewrite E. by left. }
    by rewrite Hnil in Hw.
  - intros H.
    assert (Hall : ∀ o, In o (objects fm None (Some property)) →
                        has_triple fm (o, RDF_type, ty) = true).
    { intros o Ho. apply in_objects in Ho as ([[s p] o'] & Ht & <-).
      apply in_triples in Ht as (Ht & _ & Hp & _). apply opt_match_some in Hp.
      unfold pred, obj in *. simpl in *. subst p. apply has_triple_In. by eapply H. }
    revert Hall. generalize (objects fm None (Some property)) as l.
    induction l as [|o l IH]; intros Hall; simpl; [done|].
    rewrite (Hall o) by (by left). simpl. apply IH. intros o' Ho'. apply Hall. by right.
Qed.

(** X7.  The report for a reference property is empty exactly when every
    object of a statement with that property has an [rdf:type] statement
    with the expected type; and it has one warning per statement that refers
    to a resource lacking that type, so a target referred to twice is
    reported twice. *)
Theorem log_references_complete fm reference_property reference_type :
  (log_references fm reference_property reference_type = [] ↔
   ∀ s o, In (s, reference_property, o) fm → In (o, RDF_type, reference_type) fm)
  ∧ List.length (log_references fm reference_property reference_type)
    = List.length
        (List.filter (fun t => negb (has_triple fm (obj t, RDF_type, reference_type)))
                     (triples fm None (Some reference_property) None)).
Proof.
  split; [apply log_references_nil|].
  unfold log_references, objects.
  generalize (triples fm None (Some reference_property) None) as l.
  induction l as [|t l IH]; [done|].
  cbn [List.map flat_map List.filter].
  destruct (has_triple fm (obj t, RDF_type, reference_type));
    cbn [negb app List.length]; by rewrite IH.
Qed.

Lemma typed_of_expected_type fm o ty :
  In (o, RDF_type, ty) fm → In o (subjects fm (Some RDF_type) None).
Proof.
  intros H. unfold subjects. apply (in_map subj _ (o, RDF_type, ty)).
  apply in_triples. split_and!; done.
Qed.

(** X8.  When the three reports are empty, [store_mapping] hands the
    final mapping to the serializer as it is: the dangling-bridge pass
    removes nothing. *)
Theorem store_mapping_after_empty_report st :
  log_references (final_mapping st) refersToClassMap ClassMap = [] →
  log_references (final_mapping st) translateWith TranslationTable = [] →
  log_references (final_mapping st) dataStorage Database = [] →
  final_mapping (store_mapping st) = final_mapping st.
Proof.
  intros H1 H2 H3. simpl. unfold clear_orphan_property_bridges.
  assert (Hloop : ∀ property ty,
            log_references (final_mapping st) property ty = [] →
            clear_references property (final_mapping st) = final_mapping st).
  { intros property ty Hnil. rewrite clear_references_steps.
    apply bridge_steps_typed. intros s o Hso.
    unfold subject_objects in Hso. apply in_map_iff in Hso as ([[s' p] o'] & [= <- <-] & Ht).
    apply in_triples in Ht as (Ht & _ & Hp & _). apply opt_match_some in Hp.
    unfold pred, obj in *. simpl in *. subst p.
    apply (typed_of_expected_type _ _ ty), (proj1 (log_references_nil _ _ _) Hnil s' o' Ht). }
  by rewrite (Hloop _ _ H1), (Hloop _ _ H2), (Hloop _ _ H3).
Qed.

Lemma store_mapping_after_empty_report_witness :
  let st := set_final_mapping (Ex6.map_graph ++ Ex6.db_graph) new_parser in
  log_references (final_mapping st) refersToClassMap ClassMap = []
  ∧ log_references (final_mapping st) translateWith TranslationTable = []
  ∧ log_references (final_mapping st) dataStorage Database = []
  ∧ final_mapping (store_mapping st) = final_mapping st.
Proof.
  split; [reflexivity|]. split; [reflexivity|]. split; [reflexivity|].
  apply (store_mapping_after_empty_report
           (set_final_mapping (Ex6.map_graph ++ Ex6.db_graph) new_parser));
    reflexivity.
Defined.

(** ** More on the loader *)

Lemma load_graph_from_first w path content g f after : ∀ before,
  forallb (fun f' => negb (loads_in w path content f')) before = true →
  w_load w f path content = inl g →
  load_graph_from w path content (before ++ f :: after)
  = (Ok g, List.map (EvLoad path) (before ++ [f])).
Proof.
  induction before as [|b before IH]; simpl; intros Hb Hf.
  - by rewrite Hf.
  - apply andb_true_iff in Hb as [Hb1 Hb2]. unfold loads_in in Hb1.
    destruct (w_load w b path content); [done|]. by rewrite (IH Hb2 Hf).
Qed.

(** X9.  [__load_graph] returns the graph of the first format, in the
    order JSON-LD, RDF/XML, Turtle, TriG, that loads the file; the formats
    after it are not tried. *)
Theorem load_graph_first_format w file_path content before f after g :
  formats = before ++ f :: after →
  forallb (fun f' => negb (loads_in w file_path content f')) before = true →
  w_load w f file_path content = inl g →
  load_graph w file_path content = (Ok g, List.map (EvLoad file_path) (before ++ [f])).
Proof.
  intros Hfs Hb Hf. unfold load_graph. rewrite Hfs.
  by apply load_graph_from_first.
Qed.

Lemma load_graph_first_format_witness :
  formats = [JsonLd; RdfXml] ++ Turtle :: [Trig]
  ∧ forallb (fun f' => negb (loads_in Ex5.versioned_world "d/map.v2.ttl" "map" f'))
            [JsonLd; RdfXml] = true
  ∧ w_load Ex5.versioned_world Turtle "d/map.v2.ttl" "map" = inl Ex5.map_graph
  ∧ load_graph Ex5.versioned_world "d/map.v2.ttl" "map"
    = (Ok Ex5.map_graph, List.map (EvLoad "d/map.v2.ttl") ([JsonLd; RdfXml] ++ [Turtle])).
Proof.
  split; [reflexivity|]. split; [reflexivity|]. split; [reflexivity|].
  apply (load_graph_first_format Ex5.versioned_world "d/map.v2.ttl" "map"
           [JsonLd; RdfXml] Turtle [Trig] Ex5.map_graph); reflexivity.
Defined.


Lemma removals_loads path fs : removals (List.map (EvLoad path) fs) = 0.
Proof. by induction fs. Qed.






(** ** Files that are not there *)

Lemma for_each_app {A S} (body : S → A → result S) l1 l2 st :
  for_each body (l1 ++ l2) st = st' ← for_each body l1 st; for_each body l2 st'.
Proof.
  revert st. induction l1 as [|x l1 IH]; intros st; simpl; [done|].
  destruct (body st x) as [st1|e]; [|done]. cbn [mbind result_bind]. apply IH.
Qed.

Lemma isfile_false w p : isfile w p = false → w_file w p = None.
Proof.
  unfold isfile. intros H. apply bool_decide_eq_false in H.
  destruct (w_file w p); [|done]. destruct H. by eexists.
Qed.

Lemma parse_file_missing w tmp_dir file_path st :
  isfile w file_path = false → parse_file w tmp_dir file_path st = Raise IOError1.
Proof.
  intros H. apply isfile_false in H.
  unfold parse_file, validate_file, load_graph_from_format, load_graph_from_format_trace.
  by rewrite H.
Qed.

(** X11.  A path of the path list that is neither a directory nor a
    file ends the run: when the paths before it merge without error,
    [parse_path_list] raises the first [IOError] ("The file specified doesn't
    exist."), whatever follows in the list, and yields neither a mapping nor
    a report. *)
Theorem parse_path_list_missing_path w tmp_dir before cur_path after st st1 :
  parse_paths w tmp_dir before st = Ok st1 →
  isdir w cur_path = false → isfile w cur_path = false →
  parse_path_list w tmp_dir (before ++ cur_path :: after) st = Raise IOError1.
Proof.
  intros Hbefore Hdir Hfile. unfold parse_path_list, parse_paths in *.
  rewrite flat_map_app, for_each_app, Hbefore. cbn [mbind result_bind flat_map].
  unfold files_of_path at 1. rewrite Hdir. cbn [app for_each].
  by rewrite (parse_file_missing _ _ _ _ Hfile).
Qed.

Lemma parse_path_list_missing_path_witness :
  (∃ st1, parse_paths Ex6.scenario_a None ["d/map.ttl"] new_parser = Ok st1)
  ∧ isdir Ex6.scenario_a "d/nothing.ttl" = false
  ∧ isfile Ex6.scenario_a "d/nothing.ttl" = false
  ∧ parse_path_list Ex6.scenario_a None (["d/map.ttl"] ++ "d/nothing.ttl" :: ["d/db.ttl"])
      new_parser = Raise IOError1.
Proof.
  split; [eexists; vm_compute; reflexivity|].
  split; [reflexivity|]. split; [reflexivity|].
  eapply (parse_path_list_missing_path Ex6.scenario_a None ["d/map.ttl"]
            "d/nothing.ttl" ["d/db.ttl"] new_parser);
    [vm_compute; reflexivity | reflexivity | reflexivity].
Defined.

(** ** Names of files and names of resources *)

Lemma append_cons x a b : String x a +:+ b = String x (a +:+ b).
Proof. reflexivity. Qed.

Lemma append_nil b : "" +:+ b = b.
Proof. reflexivity. Qed.

Lemma contains_app c a b : contains c (a +:+ b) = contains c a || contains c b.
Proof.
  induction a as [|x a IH]; [done|].
  rewrite append_cons. simpl. by rewrite IH, orb_assoc.
Qed.

Lemma append_assoc a b c : (a +:+ b) +:+ c = a +:+ (b +:+ c).
Proof.
  induction a as [|x a IH]; [done|]. rewrite !append_cons. by rewrite IH.
Qed.

Lemma after_last_app c a x :
  contains c x = false → after_last c (a +:+ String c x) = Some x.
Proof.
  intros Hx. induction a as [|b a IH].
  - rewrite append_nil. simpl.
    pose proof (after_last_contains c x) as H. rewrite Hx in H.
    destruct (after_last c x); [done|]. unfold ascii_eqb. by rewrite Ascii.eqb_refl.
  - rewrite append_cons. simpl. by rewrite IH.
Qed.

Lemma after_first_app c a x :
  contains c a = false →
  after_first c (a +:+ String c x) = Some x ∧ before_first c (a +:+ String c x) = a.
Proof.
  induction a as [|b a IH]; intros Ha.
  - rewrite append_nil. simpl. unfold ascii_eqb. by rewrite Ascii.eqb_refl.
  - rewrite append_cons. simpl in *. apply orb_false_iff in Ha as [Hb Ha]. rewrite Hb.
    destruct (IH Ha) as [-> ->]. done.
Qed.

Lemma cut_at_dot_spec s :
  cut_at_dot s = match after_first "." s with
                 | Some (String _ _) => before_first "." s
                 | _ => s
                 end.
Proof.
  induction s as [|a s IH]; simpl; [done|].
  destruct (ascii_eqb a "."); simpl.
  - by destruct s.
  - rewrite IH. by destruct (after_first "." s) as [[|b t]|].
Qed.

(** X12.  The resource name [validate_file] expects of a file whose base
    name has no line break: the part before the first dot when something
    follows that dot; otherwise the whole base name (a name without a dot, or
    with a single dot at its very end). *)
Theorem expected_name_first_dot cur_path :
  contains newline (Path.basename cur_path) = false →
  expected_name cur_path
  = match after_first "." (Path.basename cur_path) with
    | Some (String _ _) => before_first "." (Path.basename cur_path)
    | _ => Path.basename cur_path
    end.
Proof.
  intros Hnl. unfold expected_name, Re.sub_empty.
  rewrite delete_matches_ext by (done || lia). apply cut_at_dot_spec.
Qed.

Lemma expected_name_first_dot_witness :
  contains newline (Path.basename "d/README") = false
  ∧ expected_name "d/README"
    = match after_first "." (Path.basename "d/README") with
      | Some (String _ _) => before_first "." (Path.basename "d/README")
      | _ => Path.basename "d/README"
      end.
Proof.
  split; [reflexivity|]. apply (expected_name_first_dot "d/README"). reflexivity.
Defined.

Lemma sibling_basename d name rest :
  contains "/" name = false → contains "/" rest = false →
  Path.basename (((d +:+ Path.sep +:+ name) +:+ ".") +:+ rest) = name +:+ "." +:+ rest.
Proof.
  intros Hn Hr. unfold Path.basename, Path.sep.
  replace (((d +:+ "/" +:+ name) +:+ ".") +:+ rest)
    with (d +:+ String "/" (name +:+ "." +:+ rest)).
  2: { rewrite !append_assoc. reflexivity. }
  rewrite after_last_app; [done|].
  rewrite contains_app, Hn. simpl. exact Hr.
Qed.

Lemma sibling_expected_name d name rest :
  contains "/" name = false → contains "." name = false →
  contains newline name = false →
  contains "/" rest = false → contains newline rest = false → rest ≠ "" →
  expected_name (((d +:+ Path.sep +:+ name) +:+ ".") +:+ rest) = name.
Proof.
  intros Hn1 Hn2 Hn3 Hr1 Hr2 Hr3. unfold expected_name, Re.sub_empty.
  rewrite sibling_basename by done.
  rewrite delete_matches_ext; [|by rewrite contains_app, Hn3; simpl|lia].
  rewrite cut_at_dot_spec.
  change (name +:+ "." +:+ rest) with (name +:+ String "." rest).
  destruct (after_first_app "." name rest Hn2) as [-> ->].
  by destruct rest.
Qed.

(** X13.  The resolver and the validator agree on names.  When the
    search finds, for a reference whose local name has no dot, slash or line
    break, a file [<directory>/<local name>.<rest>] with a plain [<rest>], the
    name the validator expects of that file is the local name of the
    reference.  So the statements of the reference are imported exactly when
    the file declares a typed resource with that local name (which need not
    be the reference itself); otherwise the parser is left as it was. *)
Theorem retrieve_references_sibling w file_path cur_reference st rest g :
  let name := local_name cur_reference in
  let incomplete := Path.dirname file_path +:+ Path.sep +:+ name in
  let found := (incomplete +:+ ".") +:+ rest in
  contains "/" name = false → contains "." name = false →
  contains newline name = false →
  contains "/" rest = false → contains newline rest = false → rest ≠ "" →
  complete_file_path w incomplete = Some found →
  load_graph_from_format w found None = Ok g →
  expected_name found = name
  ∧ (declares (p_triples g) name →
       retrieve_references w file_path cur_reference st
       = Ok (set_final_mapping
               (import_reference (p_triples g) cur_reference (final_mapping st))
               (add_declared_namespaces g st)))
  ∧ (¬ declares (p_triples g) name →
       retrieve_references w file_path cur_reference st = Ok st).
Proof.
  intros name incomplete found Hn1 Hn2 Hn3 Hr1 Hr2 Hr3 Hfound Hload.
  assert (Hname : expected_name found = name) by (by apply sibling_expected_name).
  split; [done|].
  destruct (validate_file_declares w found None g Hload) as [Hyes Hno].
  rewrite Hname in Hyes, Hno.
  assert (Hne : String.eqb found "" = false).
  { apply String.eqb_neq. unfold found, incomplete, Path.sep.
    rewrite !append_assoc. destruct (Path.dirname file_path); discriminate. }
  unfold retrieve_references. fold name. fold incomplete. rewrite Hfound, Hne.
  split; intros Hd.
  - rewrite (Hyes Hd). cbn [mbind result_bind].
    destruct Hd as (s & o & Hin & _).
    unfold graph_true. destruct (p_triples g) eqn:E; [done|]. by rewrite <- E.
  - by rewrite (Hno Hd).
Qed.

Lemma retrieve_references_sibling_witness :
  let w := Ex.chain_world in
  let st := new_parser in
  let g := {| p_triples := (Ex.ex "m", RDF_type, ClassMap) :: Ex.chain_mapping;
              p_namespaces := [("d2rq", str (d2rq ""))] |} in
  let name := local_name (Ex.ex "m") in
  let incomplete := Path.dirname "d/x.ttl" +:+ Path.sep +:+ name in
  let found := (incomplete +:+ ".") +:+ "ttl" in
  (contains "/" name = false ∧ contains "." name = false
   ∧ contains newline name = false
   ∧ contains "/" "ttl" = false ∧ contains newline "ttl" = false ∧ "ttl" ≠ ""
   ∧ complete_file_path w incomplete = Some found
   ∧ load_graph_from_format w found None = Ok g)
  ∧ expected_name found = name
  ∧ (declares (p_triples g) name →
       retrieve_references w "d/x.ttl" (Ex.ex "m") st
       = Ok (set_final_mapping
               (import_reference (p_triples g) (Ex.ex "m") (final_mapping st))
               (add_declared_namespaces g st)))
  ∧ (¬ declares (p_triples g) name →
       retrieve_references w "d/x.ttl" (Ex.ex "m") st = Ok st).
Proof.
  intros w st g name incomplete found.
  assert (H1 : contains "/" name = false) by (vm_compute; reflexivity).
  assert (H2 : contains "." name = false) by (vm_compute; reflexivity).
  assert (H3 : contains newline name = false) by (vm_compute; reflexivity).
  assert (H4 : contains "/" "ttl" = false) by reflexivity.
  assert (H5 : contains newline "ttl" = false) by reflexivity.
  assert (H6 : "ttl" ≠ "") by discriminate.
  assert (H7 : complete_file_path w incomplete = Some found) by (vm_compute; reflexivity).
  assert (H8 : load_graph_from_format w found None = Ok g) by (vm_compute; reflexivity).
  split; [done|].
  exact (retrieve_references_sibling w "d/x.ttl" (Ex.ex "m") st "ttl" g
           H1 H2 H3 H4 H5 H6 H7 H8).
Defined.

(** ** Where a reference is searched *)

Lemma before_last_none c x : contains c x = false → before_last c x = None.
Proof.
  induction x as [|y x IH]; simpl; [done|]. intros Hx.
  apply orb_false_iff in Hx as [Hy Hx]. by rewrite (IH Hx), Hy.
Qed.

Lemma before_last_app c a x :
  contains c x = false → before_last c (a +:+ String c x) = Some a.
Proof.
  intros Hx. induction a as [|b a IH].
  - rewrite append_nil. simpl. rewrite (before_last_none c x Hx).
    unfold ascii_eqb. by rewrite Ascii.eqb_refl.
  - rewrite append_cons. simpl. by rewrite IH.
Qed.

Lemma rstrip_slashes_no_trailing s : ends_with_slash (Path.rstrip_slashes s) = false.
Proof.
  induction s as [|a s IH]; simpl; [done|].
  destruct (Path.rstrip_slashes s) as [|b t] eqn:E.
  - destruct (ascii_eqb a "/") eqn:Ea; simpl; [done | exact Ea].
  - exact IH.
Qed.

Lemma rstrip_slashes_app_slash d :
  d ≠ "" → ends_with_slash d = false → Path.rstrip_slashes (d +:+ "/") = d.
Proof.
  induction d as [|a d IH]; [done|]. intros _ Hd. rewrite append_cons. simpl.
  destruct d as [|b d].
  - simpl in *. by rewrite Hd.
  - rewrite IH; [done | done | exact Hd].
Qed.

Lemma all_slashes_app_slash d :
  d ≠ "" → ends_with_slash d = false → Path.all_slashes (d +:+ "/") = false.
Proof.
  induction d as [|a d IH]; [done|]. intros _ Hd. rewrite append_cons. simpl.
  destruct d as [|b d].
  - simpl in *. by rewrite Hd.
  - rewrite IH; [by rewrite andb_false_r | done | exact Hd].
Qed.

Lemma dirname_proper p :
  Path.all_slashes (Path.dirname p) = false →
  Path.dirname p ≠ "" ∧ ends_with_slash (Path.dirname p) = false.
Proof.
  unfold Path.dirname. destruct (before_last "/" p) as [pre|]; [|done].
  destruct (Path.all_slashes (pre +:+ "/")) eqn:E.
  - intros H. by rewrite E in H.
  - intros H. split; [|apply rstrip_slashes_no_trailing].
    intros Hn. by rewrite Hn in H.
Qed.

Lemma dirname_sibling d name :
  d ≠ "" → ends_with_slash d = false → contains "/" name = false →
  Path.dirname (d +:+ Path.sep +:+ name) = d.
Proof.
  intros Hd1 Hd2 Hn. unfold Path.dirname, Path.sep.
  change (d +:+ "/" +:+ name) with (d +:+ String "/" name).
  rewrite (before_last_app "/" d name Hn).
  by rewrite all_slashes_app_slash, rstrip_slashes_app_slash.
Qed.

(** X14.  For an input file inside a directory (its directory part is
    not empty and not the root), a reference with a slash-free local name is
    searched in the tree under the directory of the input file: the first
    walked path that starts with [<directory>/<local name>.] is taken. *)
Theorem complete_file_path_beside_input w file_path name :
  Path.all_slashes (Path.dirname file_path) = false →
  contains "/" name = false →
  complete_file_path w (Path.dirname file_path +:+ Path.sep +:+ name)
  = List.find (startswith ((Path.dirname file_path +:+ Path.sep +:+ name) +:+ "."))
              (walked_paths w (Path.dirname file_path)).
Proof.
  intros Hd Hn. destruct (dirname_proper file_path Hd) as [H1 H2].
  unfold complete_file_path. by rewrite dirname_sibling.
Qed.

Lemma complete_file_path_beside_input_witness :
  Path.all_slashes (Path.dirname "maps/d/m.ttl") = false
  ∧ contains "/" "Foo" = false
  ∧ complete_file_path Ex.chain_world (Path.dirname "maps/d/m.ttl" +:+ Path.sep +:+ "Foo")
    = List.find (startswith ((Path.dirname "maps/d/m.ttl" +:+ Path.sep +:+ "Foo") +:+ "."))
                (walked_paths Ex.chain_world (Path.dirname "maps/d/m.ttl")).
Proof.
  split; [reflexivity|]. split; [reflexivity|].
  apply (complete_file_path_beside_input Ex.chain_world "maps/d/m.ttl" "Foo"); reflexivity.
Defined.

(** X15.  For an input file given by a bare name (no slash), the
    directory part is empty, so the incomplete path is [/<local name>] and
    the search walks the root of the file system, not the current
    directory. *)
Theorem complete_file_path_bare_input w file_path name :
  contains "/" file_path = false →
  contains "/" name = false →
  Path.dirname file_path = ""
  ∧ complete_file_path w (Path.dirname file_path +:+ Path.sep +:+ name)
    = List.find (startswith (("/" +:+ name) +:+ ".")) (walked_paths w "/").
Proof.
  intros Hf Hn.
  assert (Hd : Path.dirname file_path = "").
  { unfold Path.dirname. by rewrite (before_last_none "/" file_path Hf). }
  split; [done|]. rewrite Hd. unfold complete_file_path, Path.sep.
  rewrite append_nil.
  assert (Hroot : Path.dirname ("/" +:+ name) = "/").
  { unfold Path.dirname. change ("/" +:+ name) with ("" +:+ String "/" name).
    by rewrite (before_last_app "/" "" name Hn). }
  by rewrite Hroot.
Qed.

Lemma complete_file_path_bare_input_witness :
  contains "/" "m.ttl" = false
  ∧ contains "/" "Foo" = false
  ∧ Path.dirname "m.ttl" = ""
  ∧ complete_file_path Ex.chain_world (Path.dirname "m.ttl" +:+ Path.sep +:+ "Foo")
    = List.find (startswith (("/" +:+ "Foo") +:+ ".")) (walked_paths Ex.chain_world "/").
Proof.
  split; [reflexivity|]. split; [reflexivity|].
  apply (complete_file_path_bare_input Ex.chain_world "m.ttl" "Foo"); reflexivity.
Defined.

(** ** Local names of namespaced identifiers *)

Lemma after_first_none c s : contains c s = false → after_first c s = None.
Proof.
  induction s as [|a s IH]; simpl; [done|]. intros H.
  apply orb_false_iff in H as [Ha Hs]. by rewrite Ha, IH.
Qed.

Lemma after_last_none c s : contains c s = false → after_last c s = None.
Proof.
  intros H. pose proof (after_last_contains c s) as E. rewrite H in E.
  by destruct (after_last c s).
Qed.

(** X16.  Namespace and name round trip.  For a name that is not empty
    and has no slash, and texts without a line break: the local name of
    [<namespace>#<name>] is the name when the namespace has no ["#"], and the
    local name of [<namespace>/<name>] is the name when neither part has
    a ["#"]. *)
Theorem local_name_of_namespaced ns name :
  name ≠ "" →
  contains "/" name = false →
  contains newline ns = false →
  contains newline name = false →
  contains "#" ns = false →
  local_name (URIRef (ns +:+ "#" +:+ name)) = name
  ∧ (contains "#" name = false → local_name (URIRef (ns +:+ "/" +:+ name)) = name).
Proof.
  intros Hne Hsl Hnl1 Hnl2 Hsh. unfold local_name. simpl str.
  assert (Hnlx : ∀ c, ascii_eqb c newline = false →
                      contains newline (ns +:+ String c name) = false).
  { intros c Hc. rewrite contains_app, Hnl1. simpl. by rewrite Hc, Hnl2. }
  split.
  - unfold local_name_str.
    change (ns +:+ "#" +:+ name) with (ns +:+ String "#" name).
    rewrite search_sharp by (by apply Hnlx).
    destruct (after_first_app "#" ns name Hsh) as [-> _].
    assert (Hg : match match Some name with
                       | Some (String a t) =>
                           Some {| Re.h_end := String.length (ns +:+ String "#" name);
                                   Re.h_group := Some (String a t) |}
                       | _ => None
                       end with
                 | Some sharp_match => Re.group1 sharp_match
                 | None => ns +:+ String "#" name
                 end = name) by (by destruct name).
    rewrite Hg, search_slash by done.
    by rewrite (after_last_none "/" _ Hsl).
  - intros Hsh2. unfold local_name_str.
    change (ns +:+ "/" +:+ name) with (ns +:+ String "/" name).
    rewrite search_sharp by (by apply Hnlx).
    rewrite after_first_none by (rewrite contains_app, Hsh; simpl; exact Hsh2).
    rewrite search_slash by (by apply Hnlx).
    rewrite (after_last_app "/" ns name Hsl).
    by destruct name.
Qed.

Lemma local_name_of_namespaced_witness :
  "ClassMap" ≠ ""
  ∧ contains "/" "ClassMap" = false
  ∧ contains newline "http://www.wiwiss.fu-berlin.de/suhl/bizer/D2RQ/0.1" = false
  ∧ contains newline "ClassMap" = false
  ∧ contains "#" "http://www.wiwiss.fu-berlin.de/suhl/bizer/D2RQ/0.1" = false
  ∧ local_name (URIRef ("http://www.wiwiss.fu-berlin.de/suhl/bizer/D2RQ/0.1" +:+ "#" +:+ "ClassMap"))
    = "ClassMap"
  ∧ (contains "#" "ClassMap" = false →
     local_name (URIRef ("http://www.wiwiss.fu-berlin.de/suhl/bizer/D2RQ/0.1" +:+ "/" +:+ "ClassMap"))
     = "ClassMap").
Proof.
  split; [discriminate|]. do 4 (split; [reflexivity|]).
  apply (local_name_of_namespaced
           "http://www.wiwiss.fu-berlin.de/suhl/bizer/D2RQ/0.1" "ClassMap");
    [discriminate | reflexivity..].
Defined.

(** ** What the merge imports, keeps and never invents *)

Lemma predicate_objects_of p o g s :
  In (p, o) (predicate_objects g (Some s)) ↔ In (s, p, o) g.
Proof.
  split; [apply in_predicate_objects|]. intros H.
  unfold predicate_objects. apply in_map_iff. exists (s, p, o). split; [done|].
  apply in_triples. split; [done|]. split; [by apply opt_match_some | done].
Qed.

Lemma import_blank_node_exact o l t : ∀ fm,
  In t (fold_left (fun fm '(o_p, o_o) => add (o, o_p, o_o) fm) l fm)
  ↔ In t fm ∨ ∃ o_p o_o, In (o_p, o_o) l ∧ t = (o, o_p, o_o).
Proof.
  induction l as [|[o_p o_o] l IH]; intros fm; simpl.
  - split; [auto | intros [H | (? & ? & [] & _)]; done].
  - rewrite IH, in_add. split.
    + intros [[-> | H] | (p' & o' & Hin & ->)]; [right | by left | right].
      * exists o_p, o_o. auto.
      * exists p', o'. auto.
    + intros [H | (p' & o' & [[= <- <-] | Hin] & ->)]; [by left; right | by left; left |].
      right. by exists p', o'.
Qed.

Lemma import_reference_steps g cur_reference l t : ∀ fm,
  In t (fold_left
          (fun fm '(p, o) =>
             let fm := add (cur_reference, p, o) fm in
             if is_bnode o
             then fold_left (fun fm '(o_p, o_o) => add (o, o_p, o_o) fm)
                            (predicate_objects g (Some o)) fm
             else fm) l fm)
  ↔ In t fm
    ∨ ∃ p o, In (p, o) l
             ∧ (t = (cur_reference, p, o)
                ∨ (is_bnode o = true ∧ subj t = o ∧ In t g)).
Proof.
  induction l as [|[p o] l IH]; intros fm; simpl.
  - split; [auto | intros [H | (? & ? & [] & _)]; done].
  - rewrite IH. clear IH.
    assert (Hstep : In t (if is_bnode o
                          then fold_left (fun fm '(o_p, o_o) => add (o, o_p, o_o) fm)
                                 (predicate_objects g (Some o))
                                 (add (cur_reference, p, o) fm)
                          else add (cur_reference, p, o) fm)
                    ↔ In t fm ∨ t = (cur_reference, p, o)
                      ∨ (is_bnode o = true ∧ subj t = o ∧ In t g)).
    { destruct (is_bnode o) eqn:Eb.
      - rewrite import_blank_node_exact, in_add. split.
        + intros [[-> | H] | (o_p & o_o & Hin & ->)]; [by right; left | by left |].
          right; right. split; [done|]. split; [done|].
          by apply predicate_objects_of.
        + intros [H | [-> | (_ & Hs & Hin)]]; [by left; right | by left; left |].
          right. destruct t as [[s' p'] o']. unfold subj in Hs. simpl in Hs. subst s'.
          exists p', o'. split; [by apply predicate_objects_of | done].
      - rewrite in_add. split.
        + intros [-> | H]; [by right; left | by left].
        + intros [H | [-> | (Hb & _)]]; [by right | by left | done]. }
    rewrite Hstep. split.
    + intros [[H | H] | (p' & o' & Hin & H)]; [by left | |].
      * right. exists p, o. split; [by left | done].
      * right. exists p', o'. split; [by right | done].
    + intros [K | (p' & o' & [[= <- <-] | Hin] & K)]; [by left; left | by left; right |].
      right. by exists p', o'.
Qed.

Lemma import_reference_exact g cur_reference fm t :
  In t (import_reference g cur_reference fm)
  ↔ In t fm
    ∨ (In t g
       ∧ (subj t = cur_reference
          ∨ (is_bnode (subj t) = true ∧ ∃ p, In (cur_reference, p, subj t) g))).
Proof.
  unfold import_reference. rewrite import_reference_steps. split.
  - intros [H | (p & o & Hin & H)]; [by left|]. right.
    apply predicate_objects_of in Hin.
    destruct H as [-> | (Hb & Hs & Ht)].
    + split; [done | by left].
    + split; [done|]. right. rewrite Hs. split; [done | by exists p].
  - intros [H | (Ht & H)]; [by left|]. right.
    destruct H as [Hs | (Hb & p & Hp)].
    + destruct t as [[s p] o]. unfold subj in Hs. simpl in Hs. subst s.
      exists p, o. split; [by apply predicate_objects_of | by left].
    + exists p, (subj t). split; [by apply predicate_objects_of|]. right. done.
Qed.

Lemma retrieve_references_cases w file_path cur_reference st st' :
  retrieve_references w file_path cur_reference st = Ok st' →
  st' = st
  ∨ ∃ reference_file_path g,
      validate_file w reference_file_path None = Ok (Some g)
      ∧ st' = set_final_mapping
                (import_reference (p_triples g) cur_reference (final_mapping st))
                (add_declared_namespaces g st).
Proof.
  unfold retrieve_references.
  destruct (complete_file_path w _) as [p|]; [|by intros [= <-]; left].
  destruct (String.eqb p ""); [by intros [= <-]; left|].
  destruct (validate_file w p None) as [cur_graph|e] eqn:Hv; [|done].
  cbn [mbind result_bind].
  destruct (graph_true cur_graph) as [g|] eqn:Hg; [|by intros [= <-]; left].
  intros [= <-]. right. exists p, g. apply graph_true_some in Hg. by subst.
Qed.

Lemma bindings_grow_refl st : bindings_grow st st.
Proof. exists []. by rewrite app_nil_r. Qed.

Lemma bindings_grow_trans a b c : bindings_grow a b → bindings_grow b c → bindings_grow a c.
Proof. intros [l1 H1] [l2 H2]. exists (l1 ++ l2). by rewrite H2, H1, app_assoc. Qed.

(** X17.  [retrieve_references] touches none of the three sets and only
    appends bindings.  Either it leaves the parser as it was, or it found a
    valid reference file with graph [g], and the final mapping afterwards
    holds exactly what it held before together with the statements of [g]
    about the reference and about each blank node that is the object of a
    statement of [g] about the reference.  Nothing else of [g] comes in: a
    blank node reached only through another blank node stays out. *)
Theorem retrieve_references_one_level w file_path cur_reference st st' :
  retrieve_references w file_path cur_reference st = Ok st' →
  classmap_set st' = classmap_set st
  ∧ translationtable_set st' = translationtable_set st
  ∧ database_set st' = database_set st
  ∧ bindings_grow st st'
  ∧ (st' = st
     ∨ ∃ reference_file_path g,
         validate_file w reference_file_path None = Ok (Some g)
         ∧ ∀ t, In t (final_mapping st')
                ↔ In t (final_mapping st)
                  ∨ (In t (p_triples g)
                     ∧ (subj t = cur_reference
                        ∨ (is_bnode (subj t) = true
                           ∧ ∃ p, In (cur_reference, p, subj t) (p_triples g))))).
Proof.
  intros H. apply retrieve_references_cases in H as [-> | (p & g & Hv & ->)].
  - repeat split; [apply bindings_grow_refl | by left].
  - simpl. repeat split; [by eexists|]. right. exists p, g. split; [done|].
    intros t. apply import_reference_exact.
Qed.

Lemma retrieve_references_one_level_witness :
  let w := Ex.chain_world in
  let st := new_parser in
  let g := {| p_triples := (Ex.ex "m", RDF_type, ClassMap) :: Ex.chain_mapping;
              p_namespaces := [("d2rq", str (d2rq ""))] |} in
  let st' := set_final_mapping [(Ex.ex "m", RDF_type, ClassMap)]
               (add_declared_namespaces g st) in
  retrieve_references w "d/x.ttl" (Ex.ex "m") st = Ok st'
  ∧ classmap_set st' = classmap_set st
  ∧ translationtable_set st' = translationtable_set st
  ∧ database_set st' = database_set st
  ∧ bindings_grow st st'
  ∧ (st' = st
     ∨ ∃ reference_file_path g,
         validate_file w reference_file_path None = Ok (Some g)
         ∧ ∀ t, In t (final_mapping st')
                ↔ In t (final_mapping st)
                  ∨ (In t (p_triples g)
                     ∧ (subj t = Ex.ex "m"
                        ∨ (is_bnode (subj t) = true
                           ∧ ∃ p, In (Ex.ex "m", p, subj t) (p_triples g))))).
Proof.
  intros w st g st'.
  assert (H : retrieve_references w "d/x.ttl" (Ex.ex "m") st = Ok st')
    by (vm_compute; reflexivity).
  split; [exact H|].
  exact (retrieve_references_one_level w "d/x.ttl" (Ex.ex "m") st st' H).
Defined.

Lemma only_loaded_refl w st : only_loaded w st st.
Proof. intros t Ht. by left. Qed.

Lemma only_loaded_trans w a b c : only_loaded w a b → only_loaded w b c → only_loaded w a c.
Proof. intros H1 H2 t Ht. apply H2 in Ht as [Ht|Ht]; [by apply H1 | by right]. Qed.

Lemma merge_step_refl w st : merge_step w st st.
Proof.
  split; [apply extends_refl|]. split; [apply bindings_grow_refl | apply only_loaded_refl].
Qed.

Lemma merge_step_trans w a b c : merge_step w a b → merge_step w b c → merge_step w a c.
Proof.
  intros (H1 & H2 & H3) (K1 & K2 & K3).
  split; [by eapply extends_trans|].
  split; [by eapply bindings_grow_trans | by eapply only_loaded_trans].
Qed.

Lemma for_each_related {A S} (R : S → S → Prop) (body : S → A → result S) (l : list A) :
  (∀ st, R st st) → (∀ a b c, R a b → R b c → R a c) →
  (∀ st x st', body st x = Ok st' → R st st') →
  ∀ st st', for_each body l st = Ok st' → R st st'.
Proof.
  intros Hrefl Htrans Hbody. induction l as [|x l IH]; intros st st'; simpl.
  - intros [= <-]. apply Hrefl.
  - destruct (body st x) as [st1|e] eqn:E; [|done]. cbn [mbind result_bind].
    intros Hrest. eapply Htrans; [by eapply Hbody | by apply IH].
Qed.

Lemma validated_loaded w path tmp_dir g t :
  validate_file w path tmp_dir = Ok (Some g) → In t (p_triples g) → loaded w t.
Proof.
  intros Hv Ht. apply validate_file_loaded in Hv.
  apply load_graph_from_format_origin in Hv as (f & p & c & Hl).
  by exists f, p, c, g.
Qed.

Lemma retrieve_references_step w file_path cur_reference st st' :
  retrieve_references w file_path cur_reference st = Ok st' → merge_step w st st'.
Proof.
  intros H. apply retrieve_references_cases in H as [-> | (p & g & Hv & ->)].
  - apply merge_step_refl.
  - split; [|split].
    + unfold extends. simpl. split; [|done].
      intros t Ht. apply import_reference_exact. by left.
    + simpl. by eexists.
    + intros t Ht. simpl in Ht. apply import_reference_exact in Ht as [Ht | [Ht _]];
        [by left | right]. by eapply validated_loaded.
Qed.

Lemma resolve_classmap_step w file_path st o st' :
  resolve_classmap w file_path st o = Ok st' →
  merge_step w st st' ∧ o ∈ classmap_set st'.
Proof.
  unfold resolve_classmap. case_bool_decide as E.
  - intros Hr. pose proof (retrieve_references_step _ _ _ _ _ Hr) as ((H1 & H2 & H3 & H4) & Hb & Hl).
    simpl in *. split.
    + split; [|split; [done|done]]. unfold extends. split; [done|].
      split; [|done]. etrans; [|exact H2]. apply union_subseteq_r.
    + apply H2. apply elem_of_add_left.
  - intros [= <-]. split; [apply merge_step_refl | done].
Qed.

Lemma resolve_translationtable_step w file_path st o st' :
  resolve_translationtable w file_path st o = Ok st' →
  merge_step w st st' ∧ o ∈ translationtable_set st'.
Proof.
  unfold resolve_translationtable. case_bool_decide as E.
  - intros Hr. pose proof (retrieve_references_step _ _ _ _ _ Hr) as ((H1 & H2 & H3 & H4) & Hb & Hl).
    simpl in *. split.
    + split; [|split; [done|done]]. unfold extends. split; [done|]. split; [done|].
      split; [|done]. etrans; [|exact H3]. apply union_subseteq_r.
    + apply H3. apply elem_of_add_left.
  - intros [= <-]. split; [apply merge_step_refl | done].
Qed.

Lemma resolve_database_step w file_path st o st' :
  resolve_database w file_path st o = Ok st' →
  merge_step w st st' ∧ o ∈ database_set st'.
Proof.
  unfold resolve_database. case_bool_decide as E.
  - intros Hr. pose proof (retrieve_references_step _ _ _ _ _ Hr) as ((H1 & H2 & H3 & H4) & Hb & Hl).
    simpl in *. split.
    + split; [|split; [done|done]]. unfold extends. split; [done|]. split; [done|].
      split; [done|]. etrans; [|exact H4]. apply union_subseteq_r.
    + apply H4. apply elem_of_add_left.
  - intros [= <-]. split; [apply merge_step_refl | done].
Qed.

Lemma for_each_marks {A} (w : World) (body : parser → A → result parser)
    (Q : A → parser → Prop) (l : list A) :
  (∀ st x st', body st x = Ok st' → merge_step w st st' ∧ Q x st') →
  (∀ x st st', Q x st → merge_step w st st' → Q x st') →
  ∀ st st', for_each body l st = Ok st' →
            merge_step w st st' ∧ ∀ x, In x l → Q x st'.
Proof.
  intros Hbody Hmono. induction l as [|x l IH]; intros st st'; simpl.
  - intros [= <-]. split; [apply merge_step_refl | done].
  - destruct (body st x) as [st1|e] eqn:E; [|done]. cbn [mbind result_bind].
    intros Hrest. destruct (Hbody _ _ _ E) as (H1 & Hq1).
    destruct (IH _ _ Hrest) as (H' & Hq').
    split; [by eapply merge_step_trans|].
    intros y [<-|Hy]; [by eapply Hmono | by apply Hq'].
Qed.

Lemma copy_statement_bindings st t :
  bound_namespaces (copy_statement st t) = bound_namespaces st.
Proof.
  destruct t as [[s p] o]. unfold copy_statement.
  case_bool_decide; destruct (term_eqb o ClassMap); done.
Qed.

Lemma copy_statements_frame g : ∀ st,
  bound_namespaces (copy_statements g st) = bound_namespaces st
  ∧ translationtable_set (copy_statements g st) = translationtable_set st
  ∧ database_set (copy_statements g st) = database_set st.
Proof.
  unfold copy_statements. induction g as [|t g IH]; intros st; simpl; [done|].
  destruct (IH (copy_statement st t)) as (-> & -> & ->).
  destruct (copy_statement_sets st t) as [-> ->].
  by rewrite copy_statement_bindings.
Qed.

(** What [merge_graph] leaves behind, whatever the graphs hold. *)
Lemma merge_graph_step w file_path cur_graph st st' :
  (∀ t, In t (p_triples cur_graph) → loaded w t) →
  merge_graph w file_path cur_graph st = Ok st' →
  merge_step w st st'
  ∧ (∀ t, In t (p_triples cur_graph) →
          subj t ∉ translationtable_set st ∪ database_set st → In t (final_mapping st'))
  ∧ (∀ t, In t (p_triples cur_graph) → obj t = ClassMap → subj t ∈ classmap_set st')
  ∧ (∀ o, In o (objects (p_triples cur_graph) None (Some refersToClassMap)) →
          o ∈ classmap_set st')
  ∧ (∀ o, In o (objects (p_triples cur_graph) None (Some translateWith)) →
          o ∈ translationtable_set st')
  ∧ (∀ o, In o (objects (p_triples cur_graph) None (Some dataStorage)) →
          o ∈ database_set st').
Proof.
  intros Hl. unfold merge_graph.
  set (g := p_triples cur_graph) in *.
  destruct (copy_statements_spec g st) as (He0 & Hn0 & Hc0).
  destruct (copy_statements_frame g st) as (Hb0 & Ht0 & Hd0).
  set (st0 := add_declared_namespaces cur_graph (copy_statements g st)).
  assert (H0 : merge_step w st st0).
  { split; [exact He0|]. split.
    - exists (p_namespaces cur_graph). simpl. by rewrite Hb0.
    - intros t Ht. simpl in Ht. apply Hn0 in Ht as [Ht|Ht]; [by left | right; by apply Hl]. }
  destruct (for_each (resolve_classmap w file_path) _ st0) as [st1|e] eqn:E1; [|done].
  cbn [mbind result_bind].
  destruct (for_each (resolve_translationtable w file_path) _ st1) as [st2|e] eqn:E2; [|done].
  cbn [mbind result_bind]. intros E3.
  apply (for_each_marks w _ (fun o st => o ∈ classmap_set st)) in E1 as (S1 & Q1);
    [| apply resolve_classmap_step | intros x a b Hx ((_ & Hs & _) & _); by apply Hs].
  apply (for_each_marks w _ (fun o st => o ∈ translationtable_set st)) in E2 as (S2 & Q2);
    [| apply resolve_translationtable_step
     | intros x a b Hx ((_ & _ & Hs & _) & _); by apply Hs].
  apply (for_each_marks w _ (fun o st => o ∈ database_set st)) in E3 as (S3 & Q3);
    [| apply resolve_database_step | intros x a b Hx ((_ & _ & _ & Hs) & _); by apply Hs].
  pose proof (merge_step_trans _ _ _ _ S1 (merge_step_trans _ _ _ _ S2 S3)) as S13.
  destruct S13 as ((I13 & C13 & T13 & D13) & _).
  split; [by eapply merge_step_trans; [exact H0|]; eapply merge_step_trans; [exact S1|];
          eapply merge_step_trans|].
  split_and!.
  - intros t Ht Hs. apply I13. simpl.
    destruct (Hc0 t Ht) as [[Hin|Hin] _]; [|done].
    rewrite Ht0, Hd0 in Hin. done.
  - intros t Ht Ho. apply C13. simpl. by apply (Hc0 t Ht).
  - intros o Ho. destruct S2 as ((_ & C2 & _) & _), S3 as ((_ & C3 & _) & _).
    apply C3, C2. by apply Q1.
  - intros o Ho. destruct S3 as ((_ & _ & T3 & _) & _). apply T3. by apply Q2.
  - done.
Qed.

Lemma orphan_steps_keep_named l : ∀ g t,
  In t g → is_bnode (subj t) = false → In t (fold_left orphan_step l g).
Proof.
  induction l as [|s l IH]; intros g t Ht Hb; simpl; [done|].
  apply IH; [|done]. unfold orphan_step.
  destruct (is_bnode s && negb (term_in s (objects g None None))) eqn:E; [|done].
  apply in_remove_subject. split; [done|]. intros Hs. subst s.
  rewrite Hb in E. done.
Qed.

Lemma validated_true w path tmp_dir g :
  validate_file w path tmp_dir = Ok (Some g) → graph_true (Some g) = Some g.
Proof.
  intros Hv. unfold validate_file in Hv.
  destruct (load_graph_from_format w path tmp_dir) as [g'|e]; [|done].
  cbn [mbind result_bind] in Hv.
  destruct (validate_scan _ _) as [[found r] ty] eqn:Es.
  destruct found; [|done]. injection Hv as ->.
  pose proof (proj1 (validate_scan_found (expected_name path) (p_triples g))) as Hd.
  rewrite Es in Hd. destruct (Hd eq_refl) as (s & o & Hin & _).
  unfold graph_true. by destruct (p_triples g).
Qed.

Lemma grows_refl st : grows st st.
Proof. split; [done|]. split_and!; [done..|apply bindings_grow_refl]. Qed.

Lemma grows_trans a b c : grows a b → grows b c → grows a c.
Proof.
  intros (H1 & H2 & H3 & H4 & H5) (K1 & K2 & K3 & K4 & K5).
  split; [intros t Ht Hb; apply K1; [by apply H1 | done]|].
  split_and!; [by etrans.. | by eapply bindings_grow_trans].
Qed.

Lemma parse_file_step w tmp_dir file_path st st' :
  parse_file w tmp_dir file_path st = Ok st' →
  grows st st' ∧ only_loaded w st st'.
Proof.
  unfold parse_file.
  destruct (validate_file w file_path tmp_dir) as [cur_graph|e] eqn:Hv; [|done].
  cbn [mbind result_bind].
  assert (Hclear : ∀ st1, merge_step w st st1 →
            grows st (clear_orphan_blank_nodes st1)
            ∧ only_loaded w st (clear_orphan_blank_nodes st1)).
  { intros st1 ((I & C & T & D) & B & L). split.
    - split; [|by split_and!].
      intros t Ht Hb. simpl. apply orphan_steps_keep_named; [by apply I | done].
    - intros t Ht. simpl in Ht. apply clear_orphan_blank_nodes_incl in Ht. by apply L. }
  destruct (graph_true cur_graph) as [g|] eqn:Hg.
  - destruct (merge_graph w file_path g st) as [st1|e] eqn:Hm; [|done].
    cbn [mbind result_bind]. intros [= <-]. apply Hclear.
    apply graph_true_some in Hg. subst cur_graph.
    apply merge_graph_step in Hm as [Hm _]; [done|].
    intros t Ht. by eapply validated_loaded.
  - cbn [mbind result_bind]. intros [= <-]. apply Hclear, merge_step_refl.
Qed.

Lemma parse_paths_step w tmp_dir path_list st st' :
  parse_paths w tmp_dir path_list st = Ok st' →
  grows st st' ∧ only_loaded w st st'.
Proof.
  unfold parse_paths.
  apply (for_each_related (fun a b => grows a b ∧ only_loaded w a b)).
  - intros a. split; [apply grows_refl | apply only_loaded_refl].
  - intros a b c [H1 H2] [K1 K2].
    split; [by eapply grows_trans | by eapply only_loaded_trans].
  - intros a x b. apply parse_file_step.
Qed.

(** X18.  A run of [parse_path_list] that ends without an exception
    loses nothing about a named resource: every statement of the final
    mapping whose subject is not a blank node is still there afterwards, the
    three sets of visited references have only grown, and the bindings of
    before are a prefix of the bindings of after. *)
Theorem parse_path_list_keeps_named w tmp_dir path_list st st' report :
  parse_path_list w tmp_dir path_list st = Ok (st', report) →
  grows st st'.
Proof.
  unfold parse_path_list.
  destruct (parse_paths w tmp_dir path_list st) as [st1|e] eqn:E; [|done].
  cbn [mbind result_bind]. intros [= <- _].
  by apply parse_paths_step in E as [H _].
Qed.

Lemma parse_path_list_keeps_named_witness :
  let st := set_final_mapping
              [(Ex.ex "old", RDF_type, ClassMap); (Ex6.b, Ex.ex "p", Literal "x")]
              new_parser in
  ∃ st' report,
    parse_path_list Ex6.shared_world None ["d"] st = Ok (st', report)
    ∧ grows st st'.
Proof.
  intros st. do 2 eexists. split; [vm_compute; reflexivity|].
  eapply (parse_path_list_keeps_named Ex6.shared_world None ["d"] st).
  vm_compute; reflexivity.
Defined.

(** X19.  [parse_path_list] invents nothing: every statement of the
    final mapping after the run was in it before the run or is a statement of
    a graph the loader handed out. *)
Theorem parse_path_list_only_loaded w tmp_dir path_list st st' report :
  parse_path_list w tmp_dir path_list st = Ok (st', report) →
  only_loaded w st st'.
Proof.
  unfold parse_path_list.
  destruct (parse_paths w tmp_dir path_list st) as [st1|e] eqn:E; [|done].
  cbn [mbind result_bind]. intros [= <- _].
  by apply parse_paths_step in E as [_ H].
Qed.

Lemma parse_path_list_only_loaded_witness :
  ∃ st' report,
    parse_path_list Ex6.scenario_a None ["d/map.ttl"] new_parser = Ok (st', report)
    ∧ only_loaded Ex6.scenario_a new_parser st'.
Proof.
  do 2 eexists. split; [vm_compute; reflexivity|].
  eapply (parse_path_list_only_loaded Ex6.scenario_a None ["d/map.ttl"] new_parser).
  vm_compute; reflexivity.
Defined.

(** X20.  What [parse_file] takes from a file that validates.  Every
    statement of its graph whose subject is not a blank node, and is not
    among the translation tables and data stores visited before, is in the
    final mapping afterwards.  Every resource the graph types as a class map,
    and every target of a [refersToClassMap], [translateWith] or
    [dataStorage] statement of the graph, is in its set afterwards. *)
Theorem parse_file_imports_named w tmp_dir file_path st st' g :
  validate_file w file_path tmp_dir = Ok (Some g) →
  parse_file w tmp_dir file_path st = Ok st' →
  (∀ t, In t (p_triples g) →
        is_bnode (subj t) = false →
        subj t ∉ translationtable_set st ∪ database_set st →
        In t (final_mapping st'))
  ∧ (∀ t, In t (p_triples g) → obj t = ClassMap → subj t ∈ classmap_set st')
  ∧ (∀ o, In o (objects (p_triples g) None (Some refersToClassMap)) →
          o ∈ classmap_set st')
  ∧ (∀ o, In o (objects (p_triples g) None (Some translateWith)) →
          o ∈ translationtable_set st')
  ∧ (∀ o, In o (objects (p_triples g) None (Some dataStorage)) →
          o ∈ database_set st').
Proof.
  intros Hv. unfold parse_file. rewrite Hv. cbn [mbind result_bind].
  rewrite (validated_true _ _ _ _ Hv).
  destruct (merge_graph w file_path g st) as [st1|e] eqn:Hm; [|done].
  cbn [mbind result_bind]. intros [= <-].
  apply merge_graph_step in Hm as (_ & Hi & Hrest);
    [|intros t Ht; by eapply validated_loaded].
  split; [|exact Hrest].
  intros t Ht Hb Hs. simpl. apply orphan_steps_keep_named; [by apply Hi | done].
Qed.

Lemma parse_file_imports_named_witness :
  let g := {| p_triples := Ex6.map_graph; p_namespaces := [("d2rq", str (d2rq ""))] |} in
  validate_file Ex6.scenario_a "d/map.ttl" None = Ok (Some g)
  ∧ ∃ st',
      parse_file Ex6.scenario_a None "d/map.ttl" new_parser = Ok st'
      ∧ (∀ t, In t (p_triples g) →
              is_bnode (subj t) = false →
              subj t ∉ translationtable_set new_parser ∪ database_set new_parser →
              In t (final_mapping st'))
      ∧ (∀ t, In t (p_triples g) → obj t = ClassMap → subj t ∈ classmap_set st')
      ∧ (∀ o, In o (objects (p_triples g) None (Some refersToClassMap)) →
              o ∈ classmap_set st')
      ∧ (∀ o, In o (objects (p_triples g) None (Some translateWith)) →
              o ∈ translationtable_set st')
      ∧ (∀ o, In o (objects (p_triples g) None (Some dataStorage)) →
              o ∈ database_set st').
Proof.
  intros g.
  assert (Hv : validate_file Ex6.scenario_a "d/map.ttl" None = Ok (Some g))
    by (vm_compute; reflexivity).
  split; [exact Hv|]. eexists. split; [vm_compute; reflexivity|].
  eapply (parse_file_imports_named Ex6.scenario_a None "d/map.ttl" new_parser _ g Hv).
  vm_compute; reflexivity.
Defined.

(** ** The files a directory contributes *)

Lemma ascii_eqb_sym a b : ascii_eqb a b = ascii_eqb b a.
Proof. apply Ascii.eqb_sym. Qed.

Lemma run_lit {A} wd : ∀ (kont : Re.cont A) pos cap s,
  Re.run (Re.Lit wd) kont pos cap s
  = if startswith wd s
    then kont (pos + String.length wd) cap (drop_str (String.length wd) s)
    else None.
Proof.
  induction wd as [|a wd IH]; intros kont pos cap s.
  - simpl. by rewrite Nat.add_0_r.
  - cbn [Re.Lit Re.run Re.accepts]. destruct s as [|b s]; [done|].
    cbn [startswith String.length drop_str]. rewrite (ascii_eqb_sym a b).
    destruct (ascii_eqb b a); [|done]. cbn [andb].
    rewrite IH. by rewrite Nat.add_succ_r.
Qed.

Lemma append_empty s : s +:+ "" = s.
Proof. induction s as [|a s IH]; [done|]. rewrite append_cons. by rewrite IH. Qed.

Lemma drop_str_app a b : drop_str (String.length a) (a +:+ b) = b.
Proof. induction a as [|x a IH]; [done|]. rewrite append_cons. simpl. exact IH. Qed.

Lemma startswith_all wd s :
  startswith wd s = true ∧ drop_str (String.length wd) s = "" ↔ s = wd.
Proof.
  split.
  - intros [H1 H2]. apply startswith_prefix in H1 as [t ->].
    rewrite drop_str_app in H2. subst t. apply append_empty.
  - intros ->. split.
    + apply startswith_prefix. exists "". by rewrite append_empty.
    + rewrite <- (append_empty wd) at 2. apply drop_str_app.
Qed.

Lemma eol_finish pos cap s :
  contains newline s = false →
  Re.run Re.Eol Re.finish pos cap s
  = if String.eqb s "" then Some {| Re.h_end := pos; Re.h_group := cap |} else None.
Proof.
  intros Hnl. destruct s as [|a s]; [done|].
  apply contains_cons in Hnl as [Ha _]. simpl. rewrite Ha. by destruct s.
Qed.

Lemma drop_str_no_newline n : ∀ s,
  contains newline s = false → contains newline (drop_str n s) = false.
Proof.
  induction n as [|n IH]; intros s Hs; [done|]. destruct s as [|a s]; [done|].
  apply contains_cons in Hs as [_ Hs]. simpl. by apply IH.
Qed.

Lemma lit_to_end wd (F : nat → option string) pos s :
  contains newline s = false →
  is_Some (Re.run (Re.Lit wd)
             (fun pos' _ s' => Re.run Re.Eol Re.finish pos' (F pos') s') pos None s)
  ↔ s = wd.
Proof.
  intros Hnl. rewrite run_lit. rewrite <- startswith_all.
  destruct (startswith wd s) eqn:E.
  - rewrite eol_finish by (by apply drop_str_no_newline).
    destruct (String.eqb _ "") eqn:E2.
    + apply String.eqb_eq in E2. split; [done | by eexists].
    + apply String.eqb_neq in E2. split; [by intros [? ?] | by intros [_ ?]].
  - split; [by intros [? ?] | by intros [? _]].
Qed.

Lemma is_Some_orelse {A} (x y : option A) :
  is_Some (match x with Some v => Some v | None => y end) ↔ is_Some x ∨ is_Some y.
Proof.
  destruct x; split; eauto.
  - intros [[? ?]|?]; done.
Qed.

Lemma match_at_rdf_suffix pos s :
  contains newline s = false →
  is_Some (Re.match_at rdf_suffix_re pos s)
  ↔ ∃ ext, In ext rdf_extensions ∧ s = "." +:+ ext.
Proof.
  intros Hnl. unfold Re.match_at, rdf_suffix_re.
  destruct s as [|a s].
  - split; [by intros [? ?] | by intros (ext & _ & ?)].
  - apply contains_cons in Hnl as [_ Hs].
    change (Re.run (Re.Seq (Re.One (Re.CChar ".")) ?r) Re.finish pos None (String a s))
      with (if ascii_eqb a "."
            then Re.run r Re.finish (S pos) None s else None).
    destruct (ascii_eqb a ".") eqn:Ea.
    + apply ascii_eqb_true in Ea. subst a.
      set (F := fun pos' : nat => Some (take_str (pos' - S pos) s)).
      set (K := fun (pos' : nat) (_ : option string) (s' : string) =>
                  Re.run Re.Eol Re.finish pos' (F pos') s').
      change (Re.run (Re.Seq (Re.Group (Re.Alt (Re.Lit "rdf") (Re.Alt (Re.Lit "owl")
                (Re.Alt (Re.Lit "ttl") (Re.Lit "n3"))))) Re.Eol) Re.finish (S pos) None s)
        with (match Re.run (Re.Lit "rdf") K (S pos) None s with
              | Some x => Some x
              | None =>
                  match Re.run (Re.Lit "owl") K (S pos) None s with
                  | Some x => Some x
                  | None =>
                      match Re.run (Re.Lit "ttl") K (S pos) None s with
                      | Some x => Some x
                      | None => Re.run (Re.Lit "n3") K (S pos) None s
                      end
                  end
              end).
      rewrite !is_Some_orelse. unfold K.
      rewrite !(lit_to_end _ F (S pos) s Hs).
      unfold rdf_extensions. split.
      * intros [-> | [-> | [-> | ->]]]; eexists; (split; [|reflexivity]); simpl; auto.
      * intros (ext & Hin & [= ->]). simpl in Hin.
        destruct Hin as [<- | [<- | [<- | [<- | []]]]]; auto.
    + split; [by intros [? ?]|]. intros (ext & _ & [= -> _]). done.
Qed.

Lemma search_from_some r : ∀ s pos,
  is_Some (Re.search_from r pos s)
  ↔ ∃ pre suf, s = pre +:+ suf ∧ is_Some (Re.match_at r (pos + String.length pre) suf).
Proof.
  induction s as [|a s IH]; intros pos; simpl.
  - destruct (Re.match_at r pos "") as [h|] eqn:E.
    + split; [|by eexists]. intros _. exists "", "". rewrite Nat.add_0_r, E.
      split; [done | by eexists].
    + split; [by intros [? ?]|]. intros (pre & suf & Hs & Hm).
      destruct pre; [|done]. rewrite append_nil in Hs. subst suf.
      simpl in Hm. rewrite Nat.add_0_r, E in Hm. by destruct Hm.
  - destruct (Re.match_at r pos (String a s)) as [h|] eqn:E.
    + split; [|by eexists]. intros _. exists "", (String a s). rewrite Nat.add_0_r, E.
      split; [done | by eexists].
    + rewrite IH. split.
      * intros (pre & suf & -> & Hm). exists (String a pre), suf.
        split; [done|]. simpl. by rewrite Nat.add_succ_r.
      * intros (pre & suf & Hs & Hm). destruct pre as [|b pre].
        -- rewrite append_nil in Hs. subst suf. simpl in Hm.
           rewrite Nat.add_0_r, E in Hm. by destruct Hm.
        -- rewrite append_cons in Hs. injection Hs as <- ->.
           exists pre, suf. split; [done|]. simpl in Hm. by rewrite Nat.add_succ_r in Hm.
Qed.

Lemma search_rdf_suffix cur_file :
  contains newline cur_file = false →
  is_Some (Re.search rdf_suffix_re cur_file)
  ↔ ∃ pre ext, In ext rdf_extensions ∧ cur_file = pre +:+ "." +:+ ext.
Proof.
  intros Hnl. unfold Re.search. rewrite fmap_is_Some, search_from_some. split.
  - intros (pre & suf & -> & Hm). rewrite contains_app in Hnl.
    apply orb_false_iff in Hnl as [_ Hsuf].
    apply (match_at_rdf_suffix _ _ Hsuf) in Hm as (ext & Hin & ->). by exists pre, ext.
  - intros (pre & ext & Hin & ->). exists pre, ("." +:+ ext). split; [done|].
    rewrite contains_app in Hnl. apply orb_false_iff in Hnl as [_ Hsuf].
    apply (match_at_rdf_suffix _ _ Hsuf). by exists ext.
Qed.

(** X21.  The files [parse_path_list] takes from a directory whose tree
    has no file name with a line break: the files of the walk whose name ends
    in [.rdf], [.owl], [.ttl] or [.n3], lower case, each under the path
    [<directory of the walk>/<name>].  A name that merely contains such an
    extension, or has it in another case, is left out. *)
Theorem parse_path_list_directory_files w cur_path p :
  isdir w cur_path = true →
  (∀ cur_dir cur_subdir cur_files cur_file,
     In (cur_dir, cur_subdir, cur_files) (os_walk w cur_path) →
     In cur_file cur_files → contains newline cur_file = false) →
  In p (files_of_path w cur_path)
  ↔ ∃ cur_dir cur_subdir cur_files pre ext,
      In (cur_dir, cur_subdir, cur_files) (os_walk w cur_path)
      ∧ In (pre +:+ "." +:+ ext) cur_files
      ∧ In ext rdf_extensions
      ∧ p = cur_dir +:+ Path.sep +:+ pre +:+ "." +:+ ext.
Proof.
  intros Hdir Hnl. unfold files_of_path. rewrite Hdir. rewrite in_flat_map. split.
  - intros ([[cur_dir cur_subdir] cur_files] & Hw & Hp).
    apply in_map_iff in Hp as (cur_file & <- & Hf).
    apply filter_In in Hf as [Hf Hs]. apply bool_decide_eq_true in Hs.
    apply search_rdf_suffix in Hs as (pre & ext & Hext & ->); [|by eapply Hnl].
    by exists cur_dir, cur_subdir, cur_files, pre, ext.
  - intros (cur_dir & cur_subdir & cur_files & pre & ext & Hw & Hf & Hext & ->).
    exists (cur_dir, cur_subdir, cur_files). split; [done|].
    apply in_map_iff. exists (pre +:+ "." +:+ ext). split; [done|].
    apply filter_In. split; [done|]. apply bool_decide_eq_true.
    apply search_rdf_suffix; [by eapply Hnl | by exists pre, ext].
Qed.

Lemma parse_path_list_directory_files_witness :
  isdir Ex6.shared_world "d" = true
  ∧ (∀ cur_dir cur_subdir cur_files cur_file,
       In (cur_dir, cur_subdir, cur_files) (os_walk Ex6.shared_world "d") →
       In cur_file cur_files → contains newline cur_file = false)
  ∧ (In "d/A.ttl" (files_of_path Ex6.shared_world "d")
     ↔ ∃ cur_dir cur_subdir cur_files pre ext,
         In (cur_dir, cur_subdir, cur_files) (os_walk Ex6.shared_world "d")
         ∧ In (pre +:+ "." +:+ ext) cur_files
         ∧ In ext rdf_extensions
         ∧ "d/A.ttl" = cur_dir +:+ Path.sep +:+ pre +:+ "." +:+ ext).
Proof.
  assert (Hnl : ∀ cur_dir cur_subdir cur_files cur_file,
            In (cur_dir, cur_subdir, cur_files) (os_walk Ex6.shared_world "d") →
            In cur_file cur_files → contains newline cur_file = false).
  { intros cur_dir cur_subdir cur_files cur_file H1 H2. vm_compute in H1.
    destruct H1 as [[= <- <- <-]|[]]. destruct H2 as [<-|[<-|[]]]; reflexivity. }
  split; [reflexivity|]. split; [exact Hnl|].
  apply (parse_path_list_directory_files Ex6.shared_world "d" "d/A.ttl");
    [reflexivity | exact Hnl].
Defined.

(** ** Mappings the orphan pass leaves alone *)

Lemma orphan_steps_fixed l g :
  orphan_free g → (∀ s, In s l → In s (subjects g None None)) →
  fold_left orphan_step l g = g.
Proof.
  intros Hfree. induction l as [|s l IH]; intros Hl; simpl; [done|].
  assert (Hs : orphan_step g s = g).
  { unfold orphan_step. destruct (is_bnode s) eqn:Eb; [|done].
    destruct (in_subjects s g None None (Hl s (or_introl eq_refl))) as (t & Ht & <-).
    rewrite (proj2 (term_in_In _ _) (Hfree t Ht Eb)). done. }
  rewrite Hs. apply IH. intros s' Hs'. apply Hl. by right.
Qed.

(** X22.  [clear_orphan_blank_nodes] leaves a final mapping as it is
    exactly when the mapping has no orphan: every blank node that is the
    subject of a statement is the object of one.  On any other mapping it
    removes something. *)
Theorem clear_orphan_blank_nodes_fixed_point g :
  clear_orphan_blank_nodes_graph g = g ↔ orphan_free g.
Proof.
  split.
  - intros Heq t Ht Hb.
    apply (orphan_steps_kept g (subjects g None None) g t); [apply incl_refl | | | done].
    + fold (clear_orphan_blank_nodes_graph g). by rewrite Heq.
    + by apply in_subjects_all.
  - intros Hfree. by apply orphan_steps_fixed.
Qed.

(** ** Reference files that do not load *)

Lemma complete_file_path_not_empty w incomplete_file_path p :
  complete_file_path w incomplete_file_path = Some p → String.eqb p "" = false.
Proof.
  unfold complete_file_path. intros H.
  pose proof (find_first (fun cur_path => startswith (incomplete_file_path +:+ ".") cur_path)
                (walked_paths w (Path.dirname incomplete_file_path))) as Hf.
  rewrite H in Hf. destruct Hf as (_ & _ & _ & Hp & _).
  apply startswith_prefix in Hp as [t ->]. apply String.eqb_neq.
  rewrite append_assoc. destruct incomplete_file_path; discriminate.
Qed.

Lemma retrieve_references_load_error w file_path cur_reference st p e :
  complete_file_path w (Path.dirname file_path +:+ Path.sep +:+ local_name cur_reference)
  = Some p →
  load_graph_from_format w p None = Raise e →
  retrieve_references w file_path cur_reference st = Raise e.
Proof.
  intros Hc Hl. unfold retrieve_references. rewrite Hc.
  rewrite (complete_file_path_not_empty _ _ _ Hc).
  unfold validate_file. by rewrite Hl.
Qed.

(** X23.  A reference file that is found but cannot be loaded ends the
    run.  [retrieve_references] validates the file it found without a scratch
    directory, so the fallback through the scratch copy is never tried for a
    reference file, whatever scratch directory the parser was given: when the
    class maps referred to before [o] resolve without error, [o] is not yet
    in the class map set, and the file found for [o] does not load directly,
    [parse_file] raises the error of that load. *)
Theorem parse_file_unreadable_reference w tmp_dir file_path st g before o rest st1 p e :
  validate_file w file_path tmp_dir = Ok (Some g) →
  objects (p_triples g) None (Some refersToClassMap) = before ++ o :: rest →
  for_each (resolve_classmap w file_path) before
    (add_declared_namespaces g (copy_statements (p_triples g) st)) = Ok st1 →
  o ∉ classmap_set st1 →
  complete_file_path w (Path.dirname file_path +:+ Path.sep +:+ local_name o) = Some p →
  load_graph_from_format w p None = Raise e →
  parse_file w tmp_dir file_path st = Raise e.
Proof.
  intros Hv Hobj Hbefore Ho Hc Hl. unfold parse_file. rewrite Hv.
  cbn [mbind result_bind]. rewrite (validated_true _ _ _ _ Hv).
  unfold merge_graph. rewrite Hobj, for_each_app, Hbefore.
  cbn [mbind result_bind for_each].
  assert (Hr : resolve_classmap w file_path st1 o = Raise e).
  { unfold resolve_classmap. rewrite bool_decide_eq_true_2 by done.
    by apply (retrieve_references_load_error _ _ _ _ p). }
  by rewrite Hr.
Qed.

Lemma parse_file_unreadable_reference_witness :
  let w := Ex8.scratch_only_world in
  let g := {| p_triples := [(Ex.ex "A", RDF_type, d2rq "PropertyBridge");
                            (Ex.ex "A", refersToClassMap, Ex.ex "CM")];
              p_namespaces := [("d2rq", str (d2rq ""))] |} in
  let st1 := add_declared_namespaces g (copy_statements (p_triples g) new_parser) in
  validate_file w "d/A.ttl" (Some "tmp") = Ok (Some g)
  ∧ objects (p_triples g) None (Some refersToClassMap) = [] ++ [Ex.ex "CM"]
  ∧ for_each (resolve_classmap w "d/A.ttl") [] st1 = Ok st1
  ∧ (Ex.ex "CM" ∉ classmap_set st1)
  ∧ complete_file_path w (Path.dirname "d/A.ttl" +:+ Path.sep +:+ local_name (Ex.ex "CM"))
    = Some "d/CM.ttl"
  ∧ load_graph_from_format w "d/CM.ttl" None = Raise IOError2
  ∧ (∃ cm, load_graph_from_format w "d/CM.ttl" (Some "tmp") = Ok cm)
  ∧ parse_file w (Some "tmp") "d/A.ttl" new_parser = Raise IOError2.
Proof.
  intros w g st1.
  assert (H1 : validate_file w "d/A.ttl" (Some "tmp") = Ok (Some g))
    by (vm_compute; reflexivity).
  assert (H2 : objects (p_triples g) None (Some refersToClassMap) = [] ++ [Ex.ex "CM"])
    by (vm_compute; reflexivity).
  assert (H3 : for_each (resolve_classmap w "d/A.ttl") [] st1 = Ok st1) by reflexivity.
  assert (H4 : Ex.ex "CM" ∉ classmap_set st1).
  { refine (bool_decide_eq_true_1 _ _). vm_compute. reflexivity. }
  assert (H5 : complete_file_path w
                 (Path.dirname "d/A.ttl" +:+ Path.sep +:+ local_name (Ex.ex "CM"))
               = Some "d/CM.ttl") by (vm_compute; reflexivity).
  assert (H6 : load_graph_from_format w "d/CM.ttl" None = Raise IOError2)
    by (vm_compute; reflexivity).
  do 6 (split; [assumption|]).
  split.
  - eexists. vm_compute. reflexivity.
  - exact (parse_file_unreadable_reference w (Some "tmp") "d/A.ttl" new_parser g
             [] (Ex.ex "CM") [] st1 "d/CM.ttl" IOError2 H1 H2 H3 H4 H5 H6).
Defined.

(** ** Mappings the dangling-bridge pass leaves alone *)

Lemma clear_references_typed property g :
  (∀ s o, In (s, property, o) g → In o (subjects g (Some RDF_type) None)) →
  clear_references property g = g.
Proof.
  intros H. rewrite clear_references_steps. apply bridge_steps_typed.
  intros s o Hso. unfold subject_objects in Hso.
  apply in_map_iff in Hso as ([[s' p] o'] & [= <- <-] & Ht).
  apply in_triples in Ht as (Ht & _ & Hp & _). apply opt_match_some in Hp.
  unfold pred, obj in *. simpl in *. subst p. by apply (H s').
Qed.

Lemma clear_orphan_property_bridges_kept g t :
  In t (clear_orphan_property_bridges g) → is_reference_property (pred t) →
  In (obj t) (subjects g (Some RDF_type) None).
Proof.
  unfold clear_orphan_property_bridges.
  set (g1 := clear_references refersToClassMap g).
  set (g2 := clear_references translateWith g1).
  assert (H1 : incl g1 g) by apply clear_references_incl.
  assert (H2 : incl g2 g1) by apply clear_references_incl.
  intros Ht [Hp|[Hp|Hp]].
  - apply (clear_references_kept refersToClassMap g); [|done].
    by apply H2, (clear_references_incl dataStorage).
  - apply (subjects_incl g1 g); [done|].
    apply (clear_references_kept translateWith g1); [|done].
    by apply (clear_references_incl dataStorage).
  - apply (subjects_incl g2 g); [by eapply incl_tran|].
    by apply (clear_references_kept dataStorage g2).
Qed.

(** X24.  [clear_orphan_property_bridges] leaves a final mapping
    unchanged exactly when every target of a [refersToClassMap],
    [translateWith] or [dataStorage] statement has an [rdf:type] statement,
    of whatever type: the pass never compares the type of the target with
    the type the reference asks for. *)
Theorem clear_orphan_property_bridges_fixed_point g :
  clear_orphan_property_bridges g = g ↔ bridges_resolved g.
Proof.
  split.
  - intros Heq t Ht Hp. apply clear_orphan_property_bridges_kept; [|done].
    by rewrite Heq.
  - intros Hres. unfold clear_orphan_property_bridges.
    assert (Hloop : ∀ property, is_reference_property property →
                      clear_references property g = g).
    { intros property Hprop. apply clear_references_typed. intros s o Hin.
      by apply (Hres (s, property, o)). }
    rewrite (Hloop refersToClassMap) by (by left).
    rewrite (Hloop translateWith) by (by right; left).
    apply Hloop. by right; right.
Qed.

(** ** References that stay unresolved *)

Lemma find_nothing {A} (f : A → bool) l :
  (∀ y, In y l → f y = false) → List.find f l = None.
Proof.
  induction l as [|x l IH]; intros H; simpl; [done|].
  rewrite (H x) by (by left). apply IH. intros y Hy. apply H. by right.
Qed.

Lemma find_after {A} (f : A → bool) before x after :
  (∀ y, In y before → f y = false) → f x = true →
  List.find f (before ++ x :: after) = Some x.
Proof.
  intros Hb Hx. induction before as [|y before IH]; simpl.
  - by rewrite Hx.
  - rewrite (Hb y) by (by left). apply IH. intros z Hz. apply Hb. by right.
Qed.

Lemma in_log_references fm reference_property reference_type x :
  In x (log_references fm reference_property reference_type)
  ↔ ∃ o, dangling fm reference_property reference_type o
         ∧ x = (local_name reference_type, local_name o).
Proof.
  unfold log_references, dangling. rewrite in_flat_map. split.
  - intros (o & Ho & Hx).
    apply in_objects in Ho as ([[s p] o'] & Ht & <-).
    apply in_triples in Ht as (Ht & _ & Hp & _). apply opt_match_some in Hp.
    unfold pred, obj in *. simpl in *. subst p.
    destruct (has_triple fm (o', RDF_type, reference_type)) eqn:E; [done|].
    simpl in Hx. destruct Hx as [<-|[]]. exists o'. split; [|done].
    split; [by exists s|]. intros Hin. apply has_triple_In in Hin. congruence.
  - intros (o & [[s Hs] Hno] & ->). exists o. split.
    + apply in_objects. exists (s, reference_property, o). split; [|done].
      apply in_triples. split_and!; try done. by apply opt_match_some.
    + destruct (has_triple fm (o, RDF_type, reference_type)) eqn:E.
      * apply has_triple_In in E. contradiction.
      * simpl. by left.
Qed.

(** C2, as the code has it.  [retrieve_references] returns with the
    parser as it was (nothing imported, nothing bound, no exception) when no
    path of the tree it walks starts with [<directory>/<local name>.], and
    when the first such path is a file that loads but has no [rdf:type]
    statement about a resource carrying the name the validator expects of
    it.  When that file does not load, the error of the load is raised.  The
    report of a run has a warning for a reference exactly when the final
    mapping the run ends with makes the reference, with the property of the
    report, and does not type its target as the report expects. *)
Theorem retrieve_references_unresolved :
  (∀ w file_path cur_reference st,
     let incomplete :=
       Path.dirname file_path +:+ Path.sep +:+ local_name cur_reference in
     (∀ cur_path, In cur_path (walked_paths w (Path.dirname incomplete)) →
                  startswith (incomplete +:+ ".") cur_path = false) →
     retrieve_references w file_path cur_reference st = Ok st)
  ∧ (∀ w file_path cur_reference st before found after,
     let incomplete :=
       Path.dirname file_path +:+ Path.sep +:+ local_name cur_reference in
     walked_paths w (Path.dirname incomplete) = before ++ found :: after →
     (∀ cur_path, In cur_path before →
                  startswith (incomplete +:+ ".") cur_path = false) →
     startswith (incomplete +:+ ".") found = true →
     (∀ g, load_graph_from_format w found None = Ok g →
           ¬ declares (p_triples g) (expected_name found) →
           retrieve_references w file_path cur_reference st = Ok st)
     ∧ (∀ e, load_graph_from_format w found None = Raise e →
             retrieve_references w file_path cur_reference st = Raise e))
  ∧ (∀ w tmp_dir path_list st st' report,
     parse_path_list w tmp_dir path_list st = Ok (st', report) →
     ∀ x, In x report
          ↔ ∃ o, (dangling (final_mapping st') refersToClassMap ClassMap o
                  ∧ x = (local_name ClassMap, local_name o))
                 ∨ (dangling (final_mapping st') translateWith TranslationTable o
                    ∧ x = (local_name TranslationTable, local_name o))
                 ∨ (dangling (final_mapping st') dataStorage Database o
                    ∧ x = (local_name Database, local_name o))).
Proof.
  split_and!.
  - intros w file_path cur_reference st incomplete Hnone.
    assert (Hc : complete_file_path w incomplete = None).
    { unfold complete_file_path.
      by apply (find_nothing (fun cur_path => startswith (incomplete +:+ ".") cur_path)). }
    unfold retrieve_references. fold incomplete. by rewrite Hc.
  - intros w file_path cur_reference st before found after incomplete Hwalk Hbefore Hfound.
    assert (Hc : complete_file_path w incomplete = Some found).
    { unfold complete_file_path. rewrite Hwalk.
      by apply (find_after (fun cur_path => startswith (incomplete +:+ ".") cur_path)). }
    assert (Hne : String.eqb found "" = false).
    { apply startswith_prefix in Hfound as [t ->]. apply String.eqb_neq.
      rewrite append_assoc. unfold incomplete, Path.sep.
      rewrite !append_assoc. destruct (Path.dirname file_path); discriminate. }
    split.
    + intros g Hload Hno. unfold retrieve_references. fold incomplete.
      rewrite Hc, Hne.
      by rewrite (proj2 (validate_file_declares w found None g Hload) Hno).
    + intros e Hload. unfold retrieve_references. fold incomplete.
      rewrite Hc, Hne. unfold validate_file. by rewrite Hload.
  - intros w tmp_dir path_list st st' report. unfold parse_path_list.
    destruct (parse_paths w tmp_dir path_list st) as [st1|e]; [|done].
    cbn [mbind result_bind]. intros [= <- <-] x.
    rewrite !in_app_iff, !in_log_references. split.
    + intros [(o & H) | [(o & H) | (o & H)]]; exists o; tauto.
    + intros (o & [H | [H | H]]); [left | right; left | right; right]; by exists o.
Qed.

Lemma retrieve_references_unresolved_witness :
  retrieve_references Ex.dangling_world "d/PB.ttl" (Ex.ex "DB") new_parser = Ok new_parser
  ∧ retrieve_references Ex.chain_world "d/m.ttl" (Ex.ex "n") new_parser = Ok new_parser
  ∧ retrieve_references Ex8.scratch_only_world "d/A.ttl" (Ex.ex "CM") new_parser
    = Raise IOError2
  ∧ ∃ st' report,
      parse_path_list Ex.dangling_world None ["d/PB.ttl"] new_parser = Ok (st', report)
      ∧ dangling (final_mapping st') dataStorage Database (Ex.ex "DB")
      ∧ In (local_name Database, local_name (Ex.ex "DB")) report.
Proof.
  split_and!.
  - apply (proj1 retrieve_references_unresolved Ex.dangling_world "d/PB.ttl" (Ex.ex "DB")).
    intros cur_path H. vm_compute in H. destruct H as [<-|[]]. reflexivity.
  - refine (proj1 (proj1 (proj2 retrieve_references_unresolved) Ex.chain_world "d/m.ttl"
              (Ex.ex "n") new_parser ["d/m.ttl"] "d/n.ttl" [] _ _ _)
              {| p_triples := [(Ex.ex "other", RDF_type, ClassMap)];
                 p_namespaces := [("d2rq", str (d2rq ""))] |} _ _).
    + vm_compute. reflexivity.
    + intros cur_path [<-|[]]. reflexivity.
    + reflexivity.
    + vm_compute. reflexivity.
    + intros (s & o & Hin & Hn). simpl in Hin. destruct Hin as [[= <- <-]|[]].
      vm_compute in Hn. discriminate Hn.
  - refine (proj2 (proj1 (proj2 retrieve_references_unresolved) Ex8.scratch_only_world
              "d/A.ttl" (Ex.ex "CM") new_parser ["d/A.ttl"] "d/CM.ttl" [] _ _ _)
              IOError2 _).
    + vm_compute. reflexivity.
    + intros cur_path [<-|[]]. reflexivity.
    + reflexivity.
    + vm_compute. reflexivity.
  - do 2 eexists. split; [vm_compute; reflexivity|].
    assert (Hd : dangling Ex.dangling_mapping dataStorage Database (Ex.ex "DB")).
    { split; [exists (Ex.ex "CM"); simpl; tauto|].
      simpl. intros [H|[H|[H|[H|[]]]]]; discriminate H. }
    split; [exact Hd|].
    refine (proj2 (proj2 (proj2 retrieve_references_unresolved) Ex.dangling_world None
              ["d/PB.ttl"] new_parser _ _ _ _) _).
    + vm_compute. reflexivity.
    + exists (Ex.ex "DB"). right; right. split; [exact Hd | reflexivity].
Defined.

(** C2, as the specification states it, fails in three ways.  In
    [Ex3.subdir_world] no file of the directory [d] has a name that begins
    with [Foo.], yet the resolver imports the statement about [Foo] from
    [d/Foo.d/x.ttl].  In [Ex8.scratch_only_world] the sibling [d/CM.ttl] is
    found and loads in no format: [retrieve_references] raises.  In
    [Ex2.classmap_world] the resolver finds no file for the reference [CM]
    of [d/A.ttl], and the run over [d/A.ttl] and [e/CM.ttl] ends with an
    empty report, because the other input types [CM]. *)
Lemma retrieve_references_beyond_siblings :
  ((∀ es name,
      w_dir Ex3.subdir_world (Path.dirname "d/map.ttl") = Some es →
      In name (file_names es) →
      startswith (local_name (Ex.ex "Foo") +:+ ".") name = false)
   ∧ ∃ st, retrieve_references Ex3.subdir_world "d/map.ttl" (Ex.ex "Foo") new_parser = Ok st
           ∧ final_mapping st = [(Ex.ex "Foo", RDF_type, ClassMap)])
  ∧ (directly_in Ex8.scratch_only_world (Path.dirname "d/A.ttl") "d/CM.ttl"
     ∧ startswith (local_name (Ex.ex "CM") +:+ ".") (Path.basename "d/CM.ttl") = true
     ∧ retrieve_references Ex8.scratch_only_world "d/A.ttl" (Ex.ex "CM") new_parser
       = Raise IOError2)
  ∧ (retrieve_references Ex2.classmap_world "d/A.ttl" (Ex.ex "CM") new_parser
     = Ok new_parser
     ∧ (∀ cur_path,
          In cur_path (walked_paths Ex2.classmap_world (Path.dirname "d/A.ttl")) →
          startswith ("d/" +:+ local_name (Ex.ex "CM") +:+ ".") cur_path = false)
     ∧ ∃ st', parse_path_list Ex2.classmap_world None ["d/A.ttl"; "e/CM.ttl"] new_parser
              = Ok (st', [])
              ∧ In (Ex.ex "A", refersToClassMap, Ex.ex "CM") (final_mapping st')).
Proof.
  split_and!.
  - intros es name Hes Hname. vm_compute in Hes. injection Hes as <-.
    simpl in Hname. destruct Hname as [<-|[]]. reflexivity.
  - eexists. split; [vm_compute; reflexivity | reflexivity].
  - exists [File "A.ttl"; File "CM.ttl"], "CM.ttl". split; [reflexivity|].
    split; [simpl; tauto | reflexivity].
  - reflexivity.
  - vm_compute. reflexivity.
  - vm_compute. reflexivity.
  - intros cur_path H. vm_compute in H. destruct H as [<-|[]]. reflexivity.
  - eexists. split; [vm_compute; reflexivity|]. simpl. tauto.
Qed.

(** ** Merging the same paths twice *)















